(** * eckit: the maths expression engine and the linalg Tensor

    A shallow embedding of
      - src/eckit/maths/Exp.cc    (Expr::eval, Expr::param, Undef)
      - src/eckit/maths/Count.cc  (Count)
      - src/eckit/xpr/ZipWith.h   (the ZipWith variant)
      - src/eckit/linalg/Tensor.h (Tensor)
      - src/eckit/sql/expression/function/FunctionTIMESTAMP.cc
    and the properties of these functions.

    Expression nodes are shared through [ExpPtr] (a boost::shared_ptr), and
    one of the two [param] overloads overwrites an argument slot in place:
    the nodes therefore live in a store, and a pointer is an address of the
    store or null. *)

From Stdlib Require Import ZArith QArith Qround String.
From Stdlib.Strings Require Import Byte.
From stdpp Require Import base option list.

Local Open Scope string_scope.
Local Open Scope list_scope.

(** ** Exceptions and outcomes *)

(** [ASSERT(e)] throws eckit::AssertionFailed carrying the text of [e];
    [NOTIMP] throws eckit::NotImplemented; [BadAlloc] is std::bad_alloc and
    [BadStream] a stream that does not hold what is read from it.
    [Undefined] stands for what C++
    leaves undefined: following a null pointer (or, in this store, an address
    that holds no node). *)
Inductive Exception :=
  | AssertionFailed (what : string)
  | NotImplemented
  | BadAlloc
  | BadStream
  | Undefined.

Inductive Outcome (A : Type) :=
  | Returned (a : A)
  | Thrown (e : Exception).
Arguments Returned {A} a.
Arguments Thrown {A} e.

Definition Outcome_bind {A B} (m : Outcome A) (k : A -> Outcome B) : Outcome B :=
  match m with
  | Returned a => k a
  | Thrown e => Thrown e
  end.

Notation "x <~ m ; k" := (Outcome_bind m (fun x => k))
  (at level 20, m at level 100, k at level 200).
Notation "' x <~ m ; k" := (Outcome_bind m (fun x => k))
  (at level 20, x pattern, m at level 100, k at level 200).

Module Maths.

(** ** Nodes and the store *)

Definition addr := nat.
Abbreviation ExpPtr := (option addr).
Abbreviation args_t := (list (option addr)).

(** The variants of [Expr] whose [evaluate] the sources or the
    specification give: the placeholder, two leaf values and [Count]. *)
Inductive Kind :=
  | KUndef
  | KScalar (v : Z)
  | KList
  | KCount.

#[global] Instance Kind_eq_dec : EqDecision Kind.
Proof. solve_decision. Defined.

Record Expr := mkExpr { kind : Kind; args_ : args_t }.

#[global] Instance Expr_eq_dec : EqDecision Expr.
Proof. solve_decision. Defined.

Abbreviation Heap := (list Expr).

(** ** The scope: [context_t], a deque of [ExpPtr]

    [trace] is ghost state: the pushes and pops performed on the deque so
    far, oldest first.  No operation reads it. *)
Inductive ScopeOp :=
  | Pushed (p : ExpPtr)
  | Popped (p : ExpPtr).

Record context_t := mkCtx { queue : list ExpPtr; trace : list ScopeOp }.

Definition new_ctx : context_t := mkCtx [] [].

Definition ctx_empty (c : context_t) : bool :=
  match queue c with [] => true | _ :: _ => false end.

Definition ctx_push_back (e : ExpPtr) (c : context_t) : context_t :=
  mkCtx (queue c ++ [e]) (trace c ++ [Pushed e]).

(** [front] and [pop_front] are only called on a deque that is not empty. *)
Definition ctx_front (c : context_t) : ExpPtr :=
  match queue c with [] => None | e :: _ => e end.

Definition ctx_pop_front (c : context_t) : context_t :=
  match queue c with
  | [] => c
  | e :: rest => mkCtx rest (trace c ++ [Popped e])
  end.

(** ** Expr *)

(** Modelled from the spec: [Undef::is] is declared in Exp.h, which is not
    among the sources; it tells whether the node pointed to is the Undef
    placeholder variant. *)
Definition Undef_is (h : Heap) (p : ExpPtr) : bool :=
  match p with
  | Some a =>
      match h !! a with
      | Some n => bool_decide (kind n = KUndef)
      | None => false
      end
  | None => false
  end.

(** Modelled from the spec: [Expr::arity] is declared in Exp.h; the arity of
    a node is the number of its arguments, for a list its element count. *)
Definition Expr_arity (this : Expr) : nat := length (args_ this).

(** [ExpPtr Expr::param(const size_t& i, context_t* ctx) const].
    [ctx] is a pointer: [None] is the null scope.  Returns the outcome and
    the scope as the call leaves it. *)
Definition Expr_param (h : Heap) (this : Expr) (i : nat) (ctx : option context_t)
  : Outcome ExpPtr * option context_t :=
  if negb (bool_decide (i < length (args_ this))) then
    (Thrown (AssertionFailed "i < args_.size()"), ctx)
  else
    let a := default None (args_ this !! i) in
    if negb (bool_decide (is_Some a)) then
      (Thrown (AssertionFailed "args_[i]"), ctx)
    else
      match ctx with
      | Some c =>
          if Undef_is h a then
            if negb (negb (ctx_empty c)) then
              (Thrown (AssertionFailed "!ctx->empty()"), ctx)
            else
              let e := ctx_front c in
              (Returned e, Some (ctx_pop_front c))
          else (Returned a, ctx)
      | None => (Returned a, ctx)
      end.

(** [void Expr::param(const size_t& i, ExpPtr p)], called on the node at
    address [self]. *)
Definition Expr_param_set (self : addr) (i : nat) (p : ExpPtr) (h : Heap)
  : Outcome unit * Heap :=
  match h !! self with
  | None => (Thrown Undefined, h)
  | Some this =>
      if negb (bool_decide (i < length (args_ this))) then
        (Thrown (AssertionFailed "i < args_.size()"), h)
      else if negb (bool_decide (is_Some p)) then
        (Thrown (AssertionFailed "p"), h)
      else if bool_decide (p ≠ default None (args_ this !! i)) then
        (Returned tt, <[self := mkExpr (kind this) (<[i := p]> (args_ this))]> h)
      else (Returned tt, h)
  end.

(** ** Evaluation: state and exceptions

    [evaluate] threads the store (it allocates its result) and the scope,
    and may throw.  The state is kept when an exception is thrown, so that
    the scope can be observed at the point of failure. *)
Record State := mkState { heap : Heap; ctx : context_t }.

Definition M (A : Type) : Type := State -> Outcome A * State.

Definition ret {A} (a : A) : M A := fun s => (Returned a, s).

Definition throw {A} (e : Exception) : M A := fun s => (Thrown e, s).

Definition bind {A B} (m : M A) (k : A -> M B) : M B :=
  fun s =>
    match m s with
    | (Returned a, s') => k a s'
    | (Thrown e, s') => (Thrown e, s')
    end.

Notation "x <- m ;; k" := (bind m (fun x => k))
  (at level 100, m at next level, right associativity).

Definition ASSERT (b : bool) (what : string) : M unit :=
  if b then ret tt else throw (AssertionFailed what).

(** [p->...]: following a shared pointer. *)
Definition deref (p : ExpPtr) : M Expr :=
  fun s =>
    match p with
    | Some a =>
        match heap s !! a with
        | Some n => (Returned n, s)
        | None => (Thrown Undefined, s)
        end
    | None => (Thrown Undefined, s)
    end.

(** [new]: the node is put at the end of the store. *)
Definition alloc (n : Expr) : M ExpPtr :=
  fun s => (Returned (Some (length (heap s))), mkState (heap s ++ [n]) (ctx s)).

(** [param(i, ctx)] with the scope of the running evaluation. *)
Definition param_in (this : Expr) (i : nat) : M ExpPtr :=
  fun s =>
    match Expr_param (heap s) this i (Some (ctx s)) with
    | (r, Some c) => (r, mkState (heap s) c)
    | (r, None) => (r, s)
    end.

(** ** Undef *)

(** [ValPtr Undef::evaluate(context_t& ctx)]: [shared_from_this()], cast. *)
Definition Undef_evaluate (self : addr) : M ExpPtr := ret (Some self).

(** ** Values *)

(** Modelled from the spec: Value.h and Scalar.h are not among the sources.
    A value is a leaf that evaluates to itself, and [maths::scalar(v)]
    builds a Scalar node holding [v].  The payload of a Scalar is a double;
    it is kept here as the integer it is built from. *)
Definition Value_evaluate (self : addr) : M ExpPtr := ret (Some self).

Definition scalar (v : Z) : M ExpPtr := alloc (mkExpr (KScalar v) []).

(** [ExpPtr undef()] and [ExpPtr Undef::clone()], which calls it. *)
Definition undef : M ExpPtr := alloc (mkExpr KUndef []).

Definition Undef_clone (self : addr) : M ExpPtr := undef.

(** ** Count *)

(** [Count::Count(ExpPtr e)] and the free function [count]. *)
Definition count (e : ExpPtr) : M ExpPtr := alloc (mkExpr KCount [e]).

(** [ExpPtr Count::evaluate(Scope& ctx) const] *)
Definition Count_evaluate (this : Expr) : M ExpPtr :=
  p <- param_in this 0 ;;
  n <- deref p ;;
  v <- scalar (Z.of_nat (Expr_arity n)) ;;
  ret v.

(** [ExpPtr Count::cloneWith(args_t& a) const { NOTIMP; }] *)
Definition Count_cloneWith (this : Expr) (a : args_t) : M ExpPtr :=
  throw NotImplemented.

(** ** The driver *)

(** Virtual dispatch of [evaluate] on the node at [self]. *)
Definition evaluate (self : addr) : M ExpPtr :=
  this <- deref (Some self) ;;
  match kind this with
  | KUndef => Undef_evaluate self
  | KCount => Count_evaluate this
  | KScalar _ | KList => Value_evaluate self
  end.

Definition evaluate_ptr (p : ExpPtr) : M ExpPtr :=
  match p with
  | Some a => evaluate a
  | None => throw Undefined
  end.

(** Modelled from the spec: [optimise] is declared in Exp.h and no variant
    in the sources overrides it; its default behaviour is the identity. *)
Definition Expr_optimise (self : addr) : M ExpPtr := ret (Some self).

(** Each [eval] starts from a scope of its own. *)
Definition run {A} (m : M A) (h : Heap) : Outcome A * State :=
  m (mkState h new_ctx).

Definition push_back (e : ExpPtr) : M unit :=
  fun s => (Returned tt, mkState (heap s) (ctx_push_back e (ctx s))).

Definition scope_empty : M bool :=
  fun s => (Returned (ctx_empty (ctx s)), s).

(** [std::copy(args.begin(), args.end(), std::back_inserter(ctx))] *)
Fixpoint copy_back (args : args_t) : M unit :=
  match args with
  | [] => ret tt
  | e :: rest => _ <- push_back e ;; copy_back rest
  end.

(** [ValPtr Expr::eval()] *)
Definition Expr_eval (self : addr) (h : Heap) : Outcome ExpPtr * State :=
  run (o <- Expr_optimise self ;; evaluate_ptr o) h.

(** [ValPtr Expr::eval(ExpPtr e)] *)
Definition Expr_eval1 (self : addr) (e : ExpPtr) (h : Heap) : Outcome ExpPtr * State :=
  run (_ <- push_back e ;;
       o <- Expr_optimise self ;;
       res <- evaluate_ptr o ;;
       empty <- scope_empty ;;
       _ <- ASSERT empty "ctx.empty()" ;;
       ret res) h.

(** [ValPtr Expr::eval(ExpPtr a, ExpPtr b)] *)
Definition Expr_eval2 (self : addr) (a b : ExpPtr) (h : Heap) : Outcome ExpPtr * State :=
  run (_ <- push_back a ;;
       _ <- push_back b ;;
       o <- Expr_optimise self ;;
       res <- evaluate_ptr o ;;
       empty <- scope_empty ;;
       _ <- ASSERT empty "ctx.empty()" ;;
       ret res) h.

(** [ValPtr Expr::eval(const args_t& args)] *)
Definition Expr_eval_args (self : addr) (args : args_t) (h : Heap) : Outcome ExpPtr * State :=
  run (_ <- copy_back args ;;
       o <- Expr_optimise self ;;
       res <- evaluate_ptr o ;;
       empty <- scope_empty ;;
       _ <- ASSERT empty "ctx.empty()" ;;
       ret res) h.

(** ** Counting placeholders

    [undefs d h p] counts the Undef nodes met when the tree under [p] is
    unfolded down to depth [d]; a node shared by two parents is met twice.
    A node that can be reached at all is reached within [length h] steps. *)
Fixpoint undefs (d : nat) (h : Heap) (p : ExpPtr) : nat :=
  match d with
  | O => 0
  | S d' =>
      match p with
      | Some a =>
          match h !! a with
          | Some n =>
              if bool_decide (kind n = KUndef) then 1
              else foldr (fun q acc => undefs d' h q + acc) 0 (args_ n)
          | None => 0
          end
      | None => 0
      end
  end.

Definition placeholders (h : Heap) (t : addr) : nat := undefs (length h) h (Some t).

(** ** A sample store

    [undef()] at 0, [count(undef())] at 1, the list of the scalars 7 and 9
    at 4 and [count] of that list at 5. *)
Definition store1 : Heap :=
  [ mkExpr KUndef [];
    mkExpr KCount [Some 0];
    mkExpr (KScalar 7) [];
    mkExpr (KScalar 9) [];
    mkExpr KList [Some 2; Some 3];
    mkExpr KCount [Some 4] ].

(** [count(count(undef()))] at 2. *)
Definition store2 : Heap :=
  [ mkExpr KUndef [];
    mkExpr KCount [Some 0];
    mkExpr KCount [Some 1] ].

End Maths.

Module Linalg.

Local Open Scope Z_scope.

(** ** Machine integers

    [Size] is std::size_t, taken as 64 bits wide, and [int] is 32 bits wide
    (LP64).  Values are kept in [Z]; a conversion reduces modulo the width. *)
Definition to_Size (z : Z) : Z := z mod 2 ^ 64.

Definition to_int (z : Z) : Z := (z + 2 ^ 31) mod 2 ^ 32 - 2 ^ 31.

(** [std::multiplies<Size>] *)
Definition multiplies_Size (x y : Z) : Z := to_Size (to_Size x * to_Size y).

(** [static Size flatten(const std::vector<Size>& shape)]:
    [std::accumulate(begin, end, 1, std::multiplies<Size>())].  The
    accumulator has the type of the initial value [1], which is [int]: each
    product is converted back to [int], and the result to [Size]. *)
Definition flatten (shape : list Z) : Z :=
  to_Size (fold_left (fun init d => to_int (multiplies_Size init d)) shape 1).

(** The product of the dimensions, as a number. *)
Definition product (shape : list Z) : Z := fold_right Z.mul 1 shape.

(** ** The stream *)

(** Modelled from the spec: eckit::Stream (serialisation/Stream.h) is not
    among the sources.  A stream is a sequence of typed items; [s << n]
    appends an integer, [s >> n] takes one from the front, [writeBlob]
    appends [len] raw bytes of a buffer and [readBlob] takes a blob from the
    front, which must be [len] bytes long. *)
Inductive Item :=
  | ItemSize (n : Z)
  | ItemBlob (b : list byte).

Abbreviation Stream := (list Item).

Definition put_Size (s : Stream) (n : Z) : Stream := s ++ [ItemSize n].

Definition get_Size (s : Stream) : Outcome (Z * Stream) :=
  match s with
  | ItemSize n :: s' => Returned (n, s')
  | _ => Thrown BadStream
  end.

Definition writeBlob (s : Stream) (buffer : option (list byte)) (len : Z) : Outcome Stream :=
  let mem := default [] buffer in
  if bool_decide (len <= Z.of_nat (length mem))%Z then
    Returned (s ++ [ItemBlob (take (Z.to_nat len) mem)])
  else Thrown Undefined.

Definition readBlob (s : Stream) (len : Z) : Outcome (list byte * Stream) :=
  match s with
  | ItemBlob b :: s' =>
      if bool_decide (len = Z.of_nat (length b)) then Returned (b, s')
      else Thrown (AssertionFailed "len == size")
  | _ => Thrown BadStream
  end.

(** ** Tensor<S> *)

Section Tensor.

(** [sizeof(S)], and the byte found in memory that was never written. *)
Variable sizeofS : Z.
Variable junk : byte.

(** [array_] is the storage as raw bytes, [sizeof(S)] of them per element;
    [None] is the null pointer. *)
Record Tensor := mkTensor {
  array_ : option (list byte);
  size_ : Z;
  shape_ : list Z;
  own_ : bool
}.

Definition size (t : Tensor) : Z := size_ t.

(** [new S[n]] *)
Definition new_array (n : Z) : Outcome (list byte) :=
  if bool_decide (n * sizeofS < 2 ^ 64)%Z then
    Returned (repeat junk (Z.to_nat (n * sizeofS)))
  else Thrown BadAlloc.

(** [Tensor()] *)
Definition Tensor_default : Tensor := mkTensor None 0 [] false.

(** [Tensor(const std::vector<Size>& shape)] *)
Definition Tensor_of_shape (shape : list Z) : Outcome Tensor :=
  let flat := flatten shape in
  if negb (0 <? flat)%Z then Thrown (AssertionFailed "size() > 0")
  else
    mem <~ new_array flat ;
    Returned (mkTensor (Some mem) flat shape true).

(** [Tensor(const S* array, const std::vector<Size>& shape)] *)
Definition Tensor_of_data (array : option (list byte)) (shape : list Z) : Outcome Tensor :=
  let flat := flatten shape in
  if negb (0 <? flat)%Z then Thrown (AssertionFailed "size() > 0")
  else if negb (bool_decide (is_Some array)) then Thrown (AssertionFailed "array_")
  else Returned (mkTensor array flat shape false).

(** [void resize(const std::vector<Size>& shape)]: the tensor after the
    call. *)
Definition resize (t : Tensor) (shape : list Z) : Outcome Tensor :=
  if bool_decide (size t <> flatten shape) then
    m <~ Tensor_of_shape shape ;
    Returned m
  else Returned (mkTensor (array_ t) (size_ t) shape (own_ t)).

(** [void encode(Stream& s) const] *)
Definition encode (t : Tensor) (s : Stream) : Outcome Stream :=
  let s := put_Size s (Z.of_nat (length (shape_ t))) in
  let s := fold_left put_Size (shape_ t) s in
  writeBlob s (array_ t) (to_Size (size t * sizeofS)).

(** [for (auto& v : shape_) s >> v;] over a vector of [n] elements *)
Fixpoint get_Sizes (n : nat) (s : Stream) : Outcome (list Z * Stream) :=
  match n with
  | O => Returned ([], s)
  | S n' =>
      '(v, s) <~ get_Size s ;
      '(vs, s) <~ get_Sizes n' s ;
      Returned (v :: vs, s)
  end.

(** [Tensor(Stream& s)]: the tensor built and the rest of the stream. *)
Definition Tensor_of_stream (s : Stream) : Outcome (Tensor * Stream) :=
  let this := mkTensor None 0 [] true in
  '(shape_size, s) <~ get_Size s ;
  '(shape, s) <~ get_Sizes (Z.to_nat shape_size) s ;
  let this := mkTensor (array_ this) (size_ this) shape (own_ this) in
  this <~ resize this (shape_ this) ;
  if negb (0 <? size this)%Z then Thrown (AssertionFailed "size() > 0")
  else
    match array_ this with
    | None => Thrown (AssertionFailed "array_")
    | Some mem =>
        '(b, s) <~ readBlob s (to_Size (size this * sizeofS)) ;
        Returned (mkTensor (Some (b ++ drop (length b) mem))
                           (size_ this) (shape_ this) (own_ this), s)
    end.

(** [operator[](Size i)]: the bytes of element [i]. *)
Definition element (t : Tensor) (i : Z) : list byte :=
  take (Z.to_nat sizeofS) (drop (Z.to_nat (i * sizeofS)) (default [] (array_ t))).

(** A tensor as the constructors leave it: [size_] is [flatten] of the
    shape and the storage holds [size_] elements. *)
Definition valid (t : Tensor) : Prop :=
  size_ t = flatten (shape_ t)
  /\ (size_ t * sizeofS < 2 ^ 64)%Z
  /\ exists mem, array_ t = Some mem /\ Z.of_nat (length mem) = (size_ t * sizeofS)%Z.

(** [memcpy(dst, src, n)] and [memset(dst, c, n)] on storage; reading or
    writing past the end of either is undefined. *)
Definition memcpy (dst src : list byte) (n : Z) : Outcome (list byte) :=
  if bool_decide (n <= Z.of_nat (length src) /\ n <= Z.of_nat (length dst)) then
    Returned (take (Z.to_nat n) src ++ drop (Z.to_nat n) dst)
  else Thrown Undefined.

Definition memset (dst : list byte) (c : byte) (n : Z) : Outcome (list byte) :=
  if bool_decide (n <= Z.of_nat (length dst)) then
    Returned (repeat c (Z.to_nat n) ++ drop (Z.to_nat n) dst)
  else Thrown Undefined.

(** [Tensor(const Tensor& other)]: the members are initialised first,
    [array_] by [new S[other.size()]], then come the assertions and the
    copy of the elements. *)
Definition Tensor_copy (other : Tensor) : Outcome Tensor :=
  mem <~ new_array (size other) ;
  let this := mkTensor (Some mem) (size_ other) (shape_ other) true in
  if negb (0 <? size this) then Thrown (AssertionFailed "size() > 0")
  else if negb (bool_decide (is_Some (array_ this))) then Thrown (AssertionFailed "array_")
  else
    match array_ other with
    | None => Thrown Undefined
    | Some src =>
        mem <~ memcpy mem src (to_Size (size this * sizeofS)) ;
        Returned (mkTensor (Some mem) (size_ this) (shape_ this) (own_ this))
    end.

(** [void swap(Tensor& other)]: the two tensors after the call. *)
Definition swap (this other : Tensor) : Tensor * Tensor :=
  (mkTensor (array_ other) (size_ other) (shape_ other) (own_ other),
   mkTensor (array_ this) (size_ this) (shape_ this) (own_ this)).

(** [Tensor& operator=(const Tensor& other)]: [this] after the call. *)
Definition Tensor_assign (this other : Tensor) : Outcome Tensor :=
  copy <~ Tensor_copy other ;
  Returned (swap this copy).1.

(** [void zero()] *)
Definition zero (t : Tensor) : Outcome Tensor :=
  if negb (0 <? size t) then Thrown (AssertionFailed "size() > 0")
  else
    match array_ t with
    | None => Thrown (AssertionFailed "array_")
    | Some mem =>
        mem <~ memset mem x00 (to_Size (size t * sizeofS)) ;
        Returned (mkTensor (Some mem) (size_ t) (shape_ t) (own_ t))
    end.

(** [array_[i] = value], [value] being the [sizeof(S)] bytes of an [S]. *)
Definition store (array : option (list byte)) (i : Z) (value : list byte)
  : Outcome (option (list byte)) :=
  match array with
  | None => Thrown Undefined
  | Some mem =>
      if bool_decide (0 <= i /\ (i + 1) * sizeofS <= Z.of_nat (length mem)) then
        let off := Z.to_nat (i * sizeofS) in
        Returned (Some (take off mem ++ value ++ drop (off + length value) mem))
      else Thrown Undefined
  end.

(** [for (Size i = 0; i < size(); ++i) array_[i] = value;], with [n]
    turns left and [i] the next index. *)
Fixpoint fill_loop (n : nat) (i : Z) (value : list byte) (array : option (list byte))
  : Outcome (option (list byte)) :=
  match n with
  | O => Returned array
  | S n' =>
      array <~ store array i value ;
      fill_loop n' (i + 1) value array
  end.

(** [void fill(S value)] *)
Definition fill (t : Tensor) (value : list byte) : Outcome Tensor :=
  array <~ fill_loop (Z.to_nat (size t)) 0 value (array_ t) ;
  Returned (mkTensor array (size_ t) (shape_ t) (own_ t)).

(** The loop of [operator()]: [dims] is [shape_[1..]], [args] the variadic
    arguments not yet taken.  Taking an argument that was not passed is
    undefined. *)
Fixpoint call_loop (dims args : list Z) (idx prod nargs : Z) : Outcome (Z * Z) :=
  match dims with
  | [] => Returned (idx, nargs)
  | shape_i :: dims' =>
      let nargs := nargs + 1 in
      match args with
      | [] => Thrown Undefined
      | d :: args' =>
          let idx := to_Size (idx + to_Size (d * prod)) in
          let prod := to_Size (prod * shape_i) in
          call_loop dims' args' idx prod nargs
      end
  end.

(** [S& operator()(Size dim, ...)]: the index in [array_] of the element
    referred to. *)
Definition operator_call (t : Tensor) (dim : Z) (args : list Z) : Outcome Z :=
  match shape_ t with
  | [] => Thrown (AssertionFailed "shape_.size()")
  | shape_0 :: dims =>
      '(idx, nargs) <~ call_loop dims args dim shape_0 1 ;
      if negb (bool_decide (nargs = Z.of_nat (length (shape_ t)))) then
        Thrown (AssertionFailed "nargs == shape_.size()")
      else if negb (idx <? size t) then Thrown (AssertionFailed "idx < size()")
      else Returned idx
  end.

End Tensor.

(** The column-major offset of the indices [ix] in a tensor of shape
    [shape]: the first index runs fastest. *)
Fixpoint colmajor (ix shape : list Z) : Z :=
  match ix, shape with
  | i :: ix', n :: shape' => i + n * colmajor ix' shape'
  | _, _ => 0
  end.

(** Every index is within its dimension. *)
Fixpoint in_bounds (ix shape : list Z) : Prop :=
  match ix, shape with
  | [], [] => True
  | i :: ix', n :: shape' => 0 <= i < n /\ in_bounds ix' shape'
  | _, _ => False
  end.

End Linalg.

Module Sql.

Local Open Scope Z_scope.

(** ** Doubles

    [FunctionTIMESTAMP::eval] compares its two doubles with integer
    constants, converts them to integers and does the rest in integer
    arithmetic: a double is kept as the number it stands for, with the
    values that are not numbers apart. *)
Inductive double :=
  | NaN
  | Infinity (negative : bool)
  | Finite (q : Q).

(** [x >= n] and [x <= n], [n] an integer constant that a double holds
    exactly; every comparison with a NaN is false. *)
Definition ge_int (x : double) (n : Z) : bool :=
  match x with
  | NaN => false
  | Infinity negative => negb negative
  | Finite q => Qle_bool (inject_Z n) q
  end.

Definition le_int (x : double) (n : Z) : bool :=
  match x with
  | NaN => false
  | Infinity negative => negative
  | Finite q => Qle_bool q (inject_Z n)
  end.

Definition INT_MAX : Z := 2147483647.

(** [(long long int) x]: the fraction is dropped.  The conversion is
    undefined for a value that is not a number or does not fit; [eval]
    converts only after its range test. *)
Definition to_long_long (x : double) : Z :=
  match x with
  | Finite q => Z.quot (Qnum q) (Z.pos (Qden q))
  | _ => 0
  end.

(** A [long long int] stored in a double; exact up to 2^53, and [eval]
    stores nothing larger. *)
Definition of_long_long (z : Z) : double := Finite (inject_Z z).

(** [trunc(x)] *)
Definition trunc (x : double) : double :=
  match x with
  | Finite q => Finite (inject_Z (Z.quot (Qnum q) (Z.pos (Qden q))))
  | _ => x
  end.

(** [double SQLExpression::eval(bool& missing) const]: the value, and the
    flag as the call leaves it. *)
Definition SQLExpression : Type := bool -> double * bool.

(** [double FunctionTIMESTAMP::eval(bool& missing) const] *)
Definition FunctionTIMESTAMP_eval (args_ : list SQLExpression) (missing : bool)
  : Outcome (double * bool) :=
  match args_ !! 0%nat, args_ !! 1%nat with
  | Some arg0, Some arg1 =>
      let '(indate, missing) := arg0 missing in
      let '(intime, missing) := arg1 missing in
      let outstamp := of_long_long 0 in
      if ge_int indate 0 && le_int indate INT_MAX
         && ge_int intime 0 && le_int intime 240000
      then
        let lldate := to_long_long indate in
        let lltime := to_long_long intime in
        let tstamp := lldate * 1000000 + lltime in
        let outstamp := of_long_long tstamp in
        let outstamp := trunc outstamp in
        Returned (outstamp, missing)
      else Returned (outstamp, true)
  | _, _ => Thrown Undefined
  end.

(** [void FunctionTIMESTAMP::output(std::ostream& s) const]: the integer
    that is printed. *)
Definition FunctionTIMESTAMP_output (args_ : list SQLExpression) : Outcome Z :=
  '(outstamp, _) <~ FunctionTIMESTAMP_eval args_ false ;
  Returned (to_long_long outstamp).

(** A double that is a number between 0 and [hi]. *)
Definition within (x : double) (hi : Z) : Prop :=
  exists q, x = Finite q /\ (0 <= q)%Q /\ (q <= inject_Z hi)%Q.

End Sql.

Module Xpr.

(** ** Nodes with the ZipWith variant

    ZipWith.h declares one more variant of [Expr], a function of three
    arguments whose value is a list.  These are the nodes of [Maths] with
    that variant added; [Undef_is], [Expr_arity], [Expr_param] and
    [Count_evaluate] are the same bodies of Exp.cc and Count.cc, over these
    nodes and with the scope as a plain queue. *)
Definition addr := nat.
Abbreviation ExpPtr := (option addr).

Inductive Kind :=
  | KUndef
  | KScalar (v : Z)
  | KList
  | KCount
  | KZipWith.

Record Expr := mkExpr { kind : Kind; args_ : list ExpPtr }.

Abbreviation Heap := (list Expr).
Abbreviation context_t := (list (option addr)).

Definition Undef_is (h : Heap) (p : ExpPtr) : bool :=
  match p with
  | Some a =>
      match h !! a with
      | Some n => match kind n with KUndef => true | _ => false end
      | None => false
      end
  | None => false
  end.

Definition Expr_arity (this : Expr) : nat := length (args_ this).

(** [ExpPtr Expr::param(const size_t& i, context_t* ctx) const] *)
Definition Expr_param (h : Heap) (this : Expr) (i : nat) (ctx : option context_t)
  : Outcome ExpPtr * option context_t :=
  if negb (bool_decide (i < length (args_ this))) then
    (Thrown (AssertionFailed "i < args_.size()"), ctx)
  else
    let a := default None (args_ this !! i) in
    if negb (bool_decide (is_Some a)) then
      (Thrown (AssertionFailed "args_[i]"), ctx)
    else
      match ctx with
      | Some c =>
          if Undef_is h a then
            match c with
            | [] => (Thrown (AssertionFailed "!ctx->empty()"), ctx)
            | e :: rest => (Returned e, Some rest)
            end
          else (Returned a, ctx)
      | None => (Returned a, ctx)
      end.

(** [p->...]: the node a pointer leads to, if any. *)
Definition deref (h : Heap) (p : ExpPtr) : option Expr :=
  match p with
  | Some a => h !! a
  | None => None
  end.

(** [ExpPtr Count::evaluate(Scope& ctx) const]: the outcome, the store and
    the scope after the call. *)
Definition Count_evaluate (h : Heap) (this : Expr) (ctx : context_t)
  : Outcome ExpPtr * Heap * context_t :=
  match Expr_param h this 0 (Some ctx) with
  | (Thrown e, c) => (Thrown e, h, default ctx c)
  | (Returned p, c) =>
      match deref h p with
      | None => (Thrown Undefined, h, default ctx c)
      | Some n =>
          (Returned (Some (length h)),
           h ++ [mkExpr (KScalar (Z.of_nat (Expr_arity n))) []],
           default ctx c)
      end
  end.

(** Modelled from the spec: ZipWith.h declares the constructor
    [ZipWith(ExpPtr f, ExpPtr l0, ExpPtr l1)] and, "adding support for
    count()", [countable()] and [count()]; their bodies are not among the
    sources.  The node holds [f], [l0] and [l1] in this order; its value is
    a list with one element per element of [l0], so that it is countable and
    its count is the number of elements of the list [l0]. *)
Definition zipWith (f l0 l1 : ExpPtr) : Expr := mkExpr KZipWith [f; l0; l1].

Definition ZipWith_countable (this : Expr) : bool := true.

Definition ZipWith_count (h : Heap) (this : Expr) : Outcome nat :=
  match deref h (default None (args_ this !! 1)) with
  | Some l0 => Returned (Expr_arity l0)
  | None => Thrown Undefined
  end.

(** [count(zipWith(count(undef()), [], []))] at 5: a list-valued operand,
    of no element, that is not a literal list. *)
Definition store3 : Heap :=
  [ mkExpr KUndef [];
    mkExpr KCount [Some 0];
    mkExpr KList [];
    mkExpr KList [];
    zipWith (Some 1) (Some 2) (Some 3);
    mkExpr KCount [Some 4] ].

End Xpr.

Module MathsFacts.
Import Maths.

(** ** The sample store, evaluated *)

Example eval_count_list :
  (Expr_eval 5 store1).1 = Returned (Some 6)
  /\ heap (Expr_eval 5 store1).2 !! 6 = Some (mkExpr (KScalar 2) []).
Proof. split; reflexivity. Qed.

Example eval_count_undef_bound :
  (Expr_eval1 1 (Some 4) store1).1 = Returned (Some 6)
  /\ heap (Expr_eval1 1 (Some 4) store1).2 !! 6 = Some (mkExpr (KScalar 2) []).
Proof. split; reflexivity. Qed.

Example eval_count_undef_unbound :
  (Expr_eval 1 store1).1 = Thrown (AssertionFailed "!ctx->empty()").
Proof. reflexivity. Qed.

Example eval_count_surplus :
  (Expr_eval2 1 (Some 4) (Some 2) store1).1 = Thrown (AssertionFailed "ctx.empty()").
Proof. reflexivity. Qed.

(** The one- and two-argument [eval] are [eval(args)] on a list of one and
    of two arguments. *)
Lemma Expr_eval1_args (self : addr) (a : ExpPtr) (h : Heap) :
  Expr_eval1 self a h = Expr_eval_args self [a] h.
Proof. reflexivity. Qed.

Lemma Expr_eval2_args (self : addr) (a b : ExpPtr) (h : Heap) :
  Expr_eval2 self a b h = Expr_eval_args self [a; b] h.
Proof. reflexivity. Qed.

(** ** [param] *)

(** [param] on a slot that is in range and not null, with a scope. *)
Lemma Expr_param_slot (h : Heap) (this : Expr) (i : nat) (c : context_t) (a : addr) :
  args_ this !! i = Some (Some a) ->
  Expr_param h this i (Some c) =
    if Undef_is h (Some a) then
      match queue c with
      | [] => (Thrown (AssertionFailed "!ctx->empty()"), Some c)
      | e :: rest => (Returned e, Some (mkCtx rest (trace c ++ [Popped e])))
      end
    else (Returned (Some a), Some c).
Proof.
  intros Ha. unfold Expr_param.
  rewrite bool_decide_eq_true_2 by (eapply lookup_lt_Some; exact Ha). cbn [negb].
  rewrite Ha. change (default None (Some (Some a))) with (Some a).
  rewrite bool_decide_eq_true_2 by eauto. cbn [negb].
  destruct (Undef_is h (Some a)); [|reflexivity].
  unfold ctx_empty, ctx_front, ctx_pop_front.
  destruct (queue c); reflexivity.
Qed.

(** C1 (as amended).  With [i] in range, a scope supplied and [args_[i]]
    not null: when [args_[i]] is an Undef node, [param] asserts that the
    scope is not empty, then removes its front element and returns it; when
    it is any other node, [param] returns [args_[i]] and leaves the scope as
    it is.  So the scope loses an element exactly when [args_[i]] is an
    Undef node and the scope is not empty. *)
Theorem param_scope (h : Heap) (this : Expr) (i : nat) (c : context_t) (a : addr) :
  i < length (args_ this) ->
  args_ this !! i = Some (Some a) ->
  (Undef_is h (Some a) = true ->
     (queue c = [] ->
        Expr_param h this i (Some c) = (Thrown (AssertionFailed "!ctx->empty()"), Some c))
     /\ (forall e rest, queue c = e :: rest ->
          Expr_param h this i (Some c) =
            (Returned e, Some (mkCtx rest (trace c ++ [Popped e])))))
  /\ (Undef_is h (Some a) = false ->
      Expr_param h this i (Some c) = (Returned (Some a), Some c))
  /\ (forall c', (Expr_param h this i (Some c)).2 = Some c' ->
        queue c' <> queue c <-> (Undef_is h (Some a) = true /\ queue c <> [])).
Proof.
  intros _ Ha. rewrite (Expr_param_slot h this i c a Ha).
  destruct (Undef_is h (Some a)).
  - split; [intros _; split|split; [discriminate|]].
    + intros ->. reflexivity.
    + intros e rest ->. reflexivity.
    + intros c'. destruct (queue c) as [|e rest] eqn:Hq; cbn; intros [= <-].
      * rewrite Hq. split; [congruence | intros [_ ?]; congruence].
      * cbn. split; [intros _; split; [reflexivity | discriminate]|].
        intros _ Heq. apply (f_equal length) in Heq. cbn in Heq. lia.
  - split; [discriminate|]. split; [reflexivity|].
    intros c' [= <-]. split; [congruence | intros [? _]; discriminate].
Qed.

Lemma param_scope_witness :
  Expr_param store1 (mkExpr KCount [Some 0]) 0 (Some (mkCtx [Some 4; Some 2] [])) =
    (Returned (Some 4), Some (mkCtx [Some 2] [Popped (Some 4)])).
Proof.
  destruct (param_scope store1 (mkExpr KCount [Some 0]) 0 (mkCtx [Some 4; Some 2] []) 0)
    as (Hundef & _ & _).
  - simpl; lia.
  - reflexivity.
  - destruct Hundef as [_ Hpop]; [reflexivity|].
    apply (Hpop (Some 4) [Some 2]). reflexivity.
Defined.

(** C1, as written, fails on a null argument slot: [count(ExpPtr())]
    builds a node with [args_ = [null]]; slot 0 is in range and is not an
    Undef, yet [param] does not return [args_[0]]: [ASSERT(args_[i])]
    throws. *)
Lemma param_null_slot :
  let this := mkExpr KCount [None] in
  let h := store1 ++ [this] in
  let c := mkCtx [Some 4] [] in
  count None (mkState store1 new_ctx) = (Returned (Some 6), mkState h new_ctx)
  /\ h !! 6 = Some this
  /\ 0 < length (args_ this)
  /\ Undef_is h (default None (args_ this !! 0)) = false
  /\ Expr_param h this 0 (Some c) = (Thrown (AssertionFailed "args_[i]"), Some c)
  /\ Expr_param h this 0 (Some c) <> (Returned (default None (args_ this !! 0)), Some c).
Proof. cbv zeta. repeat split; [simpl; lia | discriminate]. Qed.

(** Without a scope, [param] is a plain read of the slot. *)
Lemma param_no_scope (h : Heap) (this : Expr) (i : nat) (a : addr) :
  args_ this !! i = Some (Some a) ->
  Expr_param h this i None = (Returned (Some a), None).
Proof.
  intros Ha. unfold Expr_param.
  rewrite bool_decide_eq_true_2 by (eapply lookup_lt_Some; exact Ha).
  rewrite Ha. change (default None (Some (Some a))) with (Some a).
  cbn [negb]. rewrite bool_decide_eq_true_2 by eauto. reflexivity.
Qed.

(** C9.  On a node [self] with [i] in range and [p] not null, the mutating
    [param(i, p)] returns normally; afterwards slot [i] of [self] holds [p],
    the variant and every other slot of [self] are as before, and so is
    every other node of the store; if slot [i] held [p] already the store is
    unchanged. *)
Theorem param_set_frame (h : Heap) (self : addr) (this : Expr) (i : nat) (p : addr) :
  h !! self = Some this ->
  i < length (args_ this) ->
  exists h',
    Expr_param_set self i (Some p) h = (Returned tt, h')
    /\ (exists this',
          h' !! self = Some this'
          /\ kind this' = kind this
          /\ length (args_ this') = length (args_ this)
          /\ args_ this' !! i = Some (Some p)
          /\ forall j, j <> i -> args_ this' !! j = args_ this !! j)
    /\ (forall other, other <> self -> h' !! other = h !! other)
    /\ length h' = length h
    /\ (args_ this !! i = Some (Some p) -> h' = h).
Proof.
  intros Hself Hi. unfold Expr_param_set. rewrite Hself.
  rewrite bool_decide_eq_true_2 by exact Hi. cbn [negb].
  rewrite bool_decide_eq_true_2 by eauto. cbn [negb].
  destruct (lookup_lt_is_Some_2 (args_ this) i Hi) as [old Hold].
  rewrite Hold. change (default None (Some old)) with old.
  case_bool_decide as Hne.
  - eexists; split; [reflexivity|].
    split; [|split; [|split]].
    + eexists; split.
      * apply list_lookup_insert_eq. eapply lookup_lt_Some; exact Hself.
      * cbn. split; [reflexivity|]. split; [apply length_insert|].
        split; [apply list_lookup_insert_eq; exact Hi|].
        intros j Hj. apply list_lookup_insert_ne. congruence.
    + intros other Ho. apply list_lookup_insert_ne. congruence.
    + apply length_insert.
    + intros Hp. congruence.
  - assert (old = Some p) as -> by (destruct (decide (Some p = old)); congruence).
    exists h; split; [reflexivity|].
    split; [|split; [|split]]; try done.
    exists this. repeat split; done.
Qed.

Lemma param_set_frame_witness :
  exists h',
    Expr_param_set 4 1 (Some 2) store1 = (Returned tt, h')
    /\ h' !! 4 = Some (mkExpr KList [Some 2; Some 2])
    /\ h' !! 5 = store1 !! 5.
Proof.
  destruct (param_set_frame store1 4 (mkExpr KList [Some 2; Some 3]) 1 2)
    as (h' & Hrun & _ & _ & _ & _).
  - reflexivity.
  - simpl; lia.
  - exists h'. split; [exact Hrun|].
    vm_compute in Hrun. injection Hrun as <-. split; reflexivity.
Defined.

(** ** [Count::cloneWith] *)

(** C2 (as amended).  [Count::cloneWith] throws NotImplemented for every
    replacement list, and builds no node: store and scope are untouched. *)
Theorem Count_cloneWith_not_implemented (this : Expr) (a : args_t) (s : State) :
  Count_cloneWith this a s = (Thrown NotImplemented, s).
Proof. reflexivity. Qed.

(** C2, as written, fails: on a one-element replacement list
    [Count::cloneWith] returns no node. *)
Lemma Count_cloneWith_one_argument :
  let s := mkState store1 new_ctx in
  Count_cloneWith (mkExpr KCount [Some 4]) [Some 2] s = (Thrown NotImplemented, s)
  /\ forall r : ExpPtr, fst (Count_cloneWith (mkExpr KCount [Some 4]) [Some 2] s) <> Returned r.
Proof. cbv zeta. split; [reflexivity | discriminate]. Qed.

(** ** [Undef::evaluate] *)

(** C3 (as amended).  Evaluating an Undef node returns the node itself and
    changes neither the store nor the scope, whatever the scope holds; the
    zero-argument [eval] of an Undef node returns it likewise.  No exception
    is thrown at that node. *)
Theorem Undef_evaluate_identity (h : Heap) (self : addr) (this : Expr) (c : context_t) :
  h !! self = Some this ->
  kind this = KUndef ->
  evaluate self (mkState h c) = (Returned (Some self), mkState h c)
  /\ Expr_eval self h = (Returned (Some self), mkState h new_ctx).
Proof.
  intros Hself Hk.
  assert (forall c', evaluate self (mkState h c') = (Returned (Some self), mkState h c')) as E.
  { intros c'. unfold evaluate, bind, deref. cbn [heap]. rewrite Hself, Hk. reflexivity. }
  split; [apply E|].
  unfold Expr_eval, run, bind, Expr_optimise, ret, evaluate_ptr. apply E.
Qed.

Lemma Undef_evaluate_identity_witness :
  evaluate 0 (mkState store1 (mkCtx [Some 4] [])) =
    (Returned (Some 0), mkState store1 (mkCtx [Some 4] [])).
Proof.
  apply (Undef_evaluate_identity store1 0 (mkExpr KUndef []) (mkCtx [Some 4] [])).
  - reflexivity.
  - reflexivity.
Defined.

(** C3, as written, fails: a never-substituted Undef node, evaluated with
    no argument supplied, is returned as the value; nothing is raised. *)
Lemma Undef_evaluate_unbound :
  kind <$> store1 !! 0 = Some KUndef
  /\ Expr_eval 0 store1 = (Returned (Some 0), mkState store1 new_ctx)
  /\ forall e, fst (Expr_eval 0 store1) <> Thrown e.
Proof. repeat split. discriminate. Qed.

(** ** [Count::evaluate] *)

(** C5 (as amended).  With [self] a Count node whose operand is a list
    node of [n] elements, a literal list, evaluation returns a new Scalar
    node holding [n], in any scope and whatever the elements are; the scope
    is left as it is.  The same holds through the zero-argument [eval]. *)
Theorem Count_evaluate_list (h : Heap) (self l : addr) (elems : args_t) (c : context_t) :
  h !! self = Some (mkExpr KCount [Some l]) ->
  h !! l = Some (mkExpr KList elems) ->
  let n := Z.of_nat (length elems) in
  evaluate self (mkState h c) =
    (Returned (Some (length h)), mkState (h ++ [mkExpr (KScalar n) []]) c)
  /\ Expr_eval self h =
    (Returned (Some (length h)), mkState (h ++ [mkExpr (KScalar n) []]) new_ctx)
  /\ (h ++ [mkExpr (KScalar n) []]) !! length h = Some (mkExpr (KScalar n) []).
Proof.
  intros Hself Hl n.
  assert (forall c', evaluate self (mkState h c') =
    (Returned (Some (length h)), mkState (h ++ [mkExpr (KScalar n) []]) c')) as E.
  { intros c'. unfold evaluate, bind, deref. cbn [heap]. rewrite Hself. cbn [kind].
    unfold Count_evaluate, bind, param_in. cbn [heap ctx].
    rewrite (Expr_param_slot h _ 0 c' l) by reflexivity.
    unfold Undef_is. rewrite Hl. cbn [kind].
    rewrite bool_decide_eq_false_2 by discriminate.
    unfold deref. cbn [heap]. rewrite Hl. reflexivity. }
  split; [apply E|]. split.
  - unfold Expr_eval, run, bind, Expr_optimise, ret, evaluate_ptr. apply E.
  - apply list_lookup_middle. reflexivity.
Qed.

Lemma Count_evaluate_list_witness :
  evaluate 5 (mkState store1 new_ctx) =
    (Returned (Some 6), mkState (store1 ++ [mkExpr (KScalar 2) []]) new_ctx).
Proof.
  apply (Count_evaluate_list store1 5 4 [Some 2; Some 3] new_ctx).
  - reflexivity.
  - reflexivity.
Defined.

(** ** The driver and the scope *)

Lemma copy_back_run (args : args_t) (h : Heap) (c : context_t) :
  copy_back args (mkState h c) =
    (Returned tt, mkState h (mkCtx (queue c ++ args) (trace c ++ map Pushed args))).
Proof.
  revert c. induction args as [|e rest IH]; intros c.
  - cbn. rewrite !app_nil_r. destruct c; reflexivity.
  - cbn [copy_back]. unfold bind at 1. unfold push_back at 1. cbn [heap ctx].
    rewrite IH. unfold ctx_push_back. cbn [queue trace map].
    rewrite <- !app_assoc. reflexivity.
Qed.

(** A placeholder sitting in an argument slot of a node that is not itself
    a placeholder is counted. *)
Lemma undef_slot_counted (h : Heap) (t : addr) (this : Expr) (a : addr) :
  h !! t = Some this ->
  kind this <> KUndef ->
  args_ this !! 0 = Some (Some a) ->
  Undef_is h (Some a) = true ->
  1 <= placeholders h t.
Proof.
  intros Ht Hk Ha Hu. unfold Undef_is in Hu.
  destruct (h !! a) as [n|] eqn:Hn; [|discriminate].
  apply bool_decide_eq_true_1 in Hu.
  assert (t <> a) as Hne by (intros ->; congruence).
  pose proof (lookup_lt_Some _ _ _ Ht) as Lt.
  pose proof (lookup_lt_Some _ _ _ Hn) as La.
  unfold placeholders.
  destruct (length h) as [|[|m]] eqn:Hlen; [lia | lia |].
  cbn [undefs]. rewrite Ht.
  rewrite bool_decide_eq_false_2 by exact Hk.
  destruct (args_ this) as [|q rest]; [discriminate|].
  cbn in Ha. injection Ha as ->.
  cbn [foldr]. rewrite Hn.
  rewrite bool_decide_eq_true_2 by exact Hu. lia.
Qed.

(** What [Count::evaluate] does to the scope: it takes one element from it
    exactly when its slot holds an Undef node and the scope is not empty. *)
Lemma Count_evaluate_scope (h : Heap) (this : Expr) (c : context_t) :
  match Count_evaluate this (mkState h c) with
  | (r, s) =>
      (ctx s = c
       \/ exists a e rest,
            args_ this !! 0 = Some (Some a) /\ Undef_is h (Some a) = true
            /\ queue c = e :: rest /\ ctx s = mkCtx rest (trace c ++ [Popped e]))
      /\ (r = Thrown (AssertionFailed "!ctx->empty()") ->
          queue c = [] /\ exists a, args_ this !! 0 = Some (Some a) /\ Undef_is h (Some a) = true)
      /\ r <> Thrown (AssertionFailed "ctx.empty()")
  end.
Proof.
  unfold Count_evaluate, bind, param_in. cbn [heap ctx].
  destruct (args_ this !! 0) as [[a|]|] eqn:Ha.
  - rewrite (Expr_param_slot h this 0 c a) by exact Ha.
    destruct (Undef_is h (Some a)) eqn:Hu.
    + destruct (queue c) as [|e rest] eqn:Hq.
      * split; [left; reflexivity|]. split; [eauto | discriminate].
      * unfold deref, scalar, alloc, ret. cbn [heap ctx].
        destruct e as [x|]; [destruct (h !! x)|]; cbn [heap ctx];
          (split; [right; eauto 10 | split; [discriminate | discriminate]]).
    + unfold deref, scalar, alloc, ret. cbn [heap ctx].
      destruct (h !! a); cbn [ctx];
        (split; [left; reflexivity | split; [discriminate | discriminate]]).
  - unfold Expr_param.
    rewrite bool_decide_eq_true_2 by (eapply lookup_lt_Some; exact Ha).
    rewrite Ha. cbn.
    split; [left; reflexivity | split; [discriminate | discriminate]].
  - unfold Expr_param.
    rewrite bool_decide_eq_false_2 by (apply lookup_ge_None_1 in Ha; lia).
    cbn. split; [left; reflexivity | split; [discriminate | discriminate]].
Qed.

(** The same for [evaluate] on any node: only a Count node whose slot holds
    an Undef node takes from the scope, and only that one can fail for want
    of an argument. *)
Lemma evaluate_scope (h : Heap) (t : addr) (c : context_t) :
  match evaluate t (mkState h c) with
  | (r, s) =>
      (ctx s = c
       \/ exists this a e rest,
            h !! t = Some this /\ kind this = KCount
            /\ args_ this !! 0 = Some (Some a) /\ Undef_is h (Some a) = true
            /\ queue c = e :: rest /\ ctx s = mkCtx rest (trace c ++ [Popped e]))
      /\ (r = Thrown (AssertionFailed "!ctx->empty()") ->
          queue c = []
          /\ exists this a,
               h !! t = Some this /\ kind this = KCount
               /\ args_ this !! 0 = Some (Some a) /\ Undef_is h (Some a) = true)
      /\ r <> Thrown (AssertionFailed "ctx.empty()")
  end.
Proof.
  unfold evaluate, bind, deref. cbn [heap].
  destruct (h !! t) as [this|] eqn:Ht.
  - destruct (kind this) eqn:Hk;
      try (cbn; split; [left; reflexivity | split; [discriminate | discriminate]]).
    pose proof (Count_evaluate_scope h this c) as HC.
    destruct (Count_evaluate this (mkState h c)) as [r s].
    destruct HC as (Hctx & Hpop & Hne).
    split; [|split; [|exact Hne]].
    + destruct Hctx as [->|(a & e & rest & ? & ? & ? & ?)]; [left; reflexivity|].
      right. exists this, a, e, rest. auto 10.
    + intros Hr. destruct (Hpop Hr) as (Hq & a & ? & ?).
      split; [exact Hq|]. exists this, a. auto.
  - cbn. split; [left; reflexivity | split; [discriminate | discriminate]].
Qed.

(** C6.  When the tree under [t] holds no placeholder, the zero-argument
    [eval] returns or throws (it is a total function), the scope it created
    is empty at the end, nothing was ever pushed on it or popped from it, and
    the evaluation did not even attempt to take an argument from it. *)
Theorem eval_without_placeholders (h : Heap) (t : addr) :
  placeholders h t = 0 ->
  exists r s,
    Expr_eval t h = (r, s)
    /\ queue (ctx s) = []
    /\ trace (ctx s) = []
    /\ r <> Thrown (AssertionFailed "!ctx->empty()").
Proof.
  intros Hz.
  exists (Expr_eval t h).1, (Expr_eval t h).2.
  split; [destruct (Expr_eval t h); reflexivity|].
  unfold Expr_eval, run, bind, Expr_optimise, ret, evaluate_ptr.
  pose proof (evaluate_scope h t new_ctx) as HE.
  destruct (evaluate t (mkState h new_ctx)) as [r s].
  destruct HE as (Hctx & Hpop & _). cbn [fst snd].
  assert (ctx s = new_ctx) as ->.
  { destruct Hctx as [->|(? & ? & ? & ? & _ & _ & _ & _ & Hq & _)];
      [reflexivity | discriminate Hq]. }
  split; [reflexivity|]. split; [reflexivity|].
  intros Hr. destruct (Hpop Hr) as (_ & this & a & Ht & Hk & Ha & Hu).
  assert (1 <= placeholders h t)
    by (eapply undef_slot_counted; eauto; rewrite Hk; discriminate).
  lia.
Qed.

Lemma eval_without_placeholders_witness :
  exists r s,
    Expr_eval 5 store1 = (r, s)
    /\ queue (ctx s) = []
    /\ trace (ctx s) = []
    /\ r <> Thrown (AssertionFailed "!ctx->empty()").
Proof.
  apply (eval_without_placeholders store1 5).
  vm_compute. reflexivity.
Defined.

(** [eval(args)] in one step: seed the scope, evaluate, check the scope. *)
Lemma Expr_eval_args_unfold (h : Heap) (t : addr) (args : args_t) :
  Expr_eval_args t args h =
    match evaluate t (mkState h (mkCtx args (map Pushed args))) with
    | (Returned v, s) =>
        if ctx_empty (ctx s) then (Returned v, s)
        else (Thrown (AssertionFailed "ctx.empty()"), s)
    | (Thrown e, s) => (Thrown e, s)
    end.
Proof.
  unfold Expr_eval_args, run. unfold bind at 1. rewrite copy_back_run.
  cbn [queue trace new_ctx app].
  unfold bind at 1. unfold Expr_optimise at 1, ret at 1. cbn [evaluate_ptr].
  unfold bind at 1.
  destruct (evaluate t _) as [[v|e] s]; [|reflexivity].
  unfold bind, scope_empty, ASSERT. destruct (ctx_empty (ctx s)); reflexivity.
Qed.

(** C4 (as amended).  Let the tree under [t] hold [k] placeholders.
    - A call of [eval] with more than [k] arguments fails; it never fails
      for want of an argument, and whenever [evaluate] itself returns it
      fails the assertion [ctx.empty()].
    - A call with no argument on a Count node whose slot holds an Undef
      node (so that [k] is not 0) fails the assertion [!ctx->empty()] of
      [param].
    Nothing is said of the other trees with fewer arguments than
    placeholders. *)
Theorem eval_args_arity (h : Heap) (t : addr) (this : Expr) (args : args_t) :
  h !! t = Some this ->
  (placeholders h t < length args ->
     exists e,
       (Expr_eval_args t args h).1 = Thrown e
       /\ e <> AssertionFailed "!ctx->empty()"
       /\ forall v,
            (evaluate t (mkState h (mkCtx args (map Pushed args)))).1 = Returned v ->
            e = AssertionFailed "ctx.empty()")
  /\ (kind this = KCount ->
      (exists a, args_ this !! 0 = Some (Some a) /\ Undef_is h (Some a) = true) ->
      args = [] ->
      length args < placeholders h t
      /\ (Expr_eval_args t args h).1 = Thrown (AssertionFailed "!ctx->empty()")).
Proof.
  intros Ht. split.
  - intros Hk.
    rewrite Expr_eval_args_unfold.
    pose proof (evaluate_scope h t (mkCtx args (map Pushed args))) as HE.
    destruct (evaluate t (mkState h (mkCtx args (map Pushed args)))) as [r s].
    destruct HE as (Hctx & Hpop & Hne). cbn [queue trace] in *.
    destruct r as [v|e].
    + exists (AssertionFailed "ctx.empty()"). split; [|split; [discriminate | reflexivity]].
      assert (ctx_empty (ctx s) = false) as ->; [|reflexivity].
      unfold ctx_empty.
      destruct Hctx as [->|(th & a & e & rest & Ht' & Hkind & Ha & Hu & Hq & ->)].
      * cbn. destruct args; [cbn in Hk; lia | reflexivity].
      * cbn.
        assert (1 <= placeholders h t)
          by (eapply undef_slot_counted; eauto; rewrite Hkind; discriminate).
        subst args. destruct rest; [cbn in Hk; lia | reflexivity].
    + exists e. split; [reflexivity|]. split; [|discriminate].
      intros ->. destruct (Hpop eq_refl) as (Hq & _).
      subst args. cbn in Hk. lia.
  - intros Hkind (a & Ha & Hu) ->.
    assert (1 <= placeholders h t)
      by (eapply undef_slot_counted; eauto; rewrite Hkind; discriminate).
    split; [cbn; lia|].
    rewrite Expr_eval_args_unfold.
    unfold evaluate, bind, deref. cbn [heap map].
    rewrite Ht, Hkind.
    unfold Count_evaluate, bind, param_in. cbn [heap ctx].
    rewrite (Expr_param_slot h this 0 (mkCtx [] []) a) by exact Ha.
    rewrite Hu. reflexivity.
Qed.

Lemma eval_args_arity_witness :
  (exists e, (Expr_eval_args 1 [Some 4; Some 2] store1).1 = Thrown e
             /\ e <> AssertionFailed "!ctx->empty()")
  /\ (Expr_eval_args 1 [] store1).1 = Thrown (AssertionFailed "!ctx->empty()").
Proof.
  split.
  - destruct (eval_args_arity store1 1 (mkExpr KCount [Some 0]) [Some 4; Some 2] eq_refl)
      as [Hmore _].
    destruct Hmore as (e & He & Hne & _); [vm_compute; lia|].
    exists e. split; assumption.
  - destruct (eval_args_arity store1 1 (mkExpr KCount [Some 0]) [] eq_refl)
      as [_ Hfew].
    apply Hfew.
    + reflexivity.
    + exists 0. split; reflexivity.
    + reflexivity.
Defined.

(** A placeholder below an operand that is not evaluated is not bound:
    [count(count(undef()))] holds one placeholder, evaluates to the arity 1
    of [count(undef())] with no argument, and leaves a supplied argument in
    the scope. *)
Example eval_nested_placeholder :
  placeholders store2 2 = 1
  /\ (Expr_eval_args 2 [] store2).1 = Returned (Some 3)
  /\ heap (Expr_eval_args 2 [] store2).2 !! 3 = Some (mkExpr (KScalar 1) [])
  /\ (Expr_eval_args 2 [Some 0] store2).1 = Thrown (AssertionFailed "ctx.empty()").
Proof. repeat split. Qed.

(** C4, as written, fails: the tree made of one Undef node holds one
    placeholder; [eval] with an empty argument list supplies fewer, and
    returns the node. *)
Lemma eval_args_root_placeholder :
  placeholders store1 0 = 1
  /\ length ([] : args_t) < placeholders store1 0
  /\ Expr_eval_args 0 [] store1 = (Returned (Some 0), mkState store1 new_ctx)
  /\ forall e, (Expr_eval_args 0 [] store1).1 <> Thrown e.
Proof. repeat split; [vm_compute; lia | discriminate]. Qed.

End MathsFacts.

Module LinalgFacts.
Import Linalg.

Local Open Scope Z_scope.

(** ** [flatten] on samples *)

Example flatten_2_3_4 : flatten [2; 3; 4] = 24.
Proof. reflexivity. Qed.

Example flatten_empty : flatten [] = 1.
Proof. reflexivity. Qed.

Example flatten_65536_65536 : flatten [65536; 65536] = 0.
Proof. reflexivity. Qed.

Example flatten_2_pow_31 : flatten [2147483648] = 18446744071562067968.
Proof. reflexivity. Qed.

(** ** Encoding and decoding *)

Lemma put_Sizes (shape : list Z) (s : Stream) :
  fold_left put_Size shape s = s ++ map ItemSize shape.
Proof.
  revert s. induction shape as [|d shape IH]; intros s; cbn.
  - symmetry. apply app_nil_r.
  - rewrite IH. unfold put_Size. rewrite <- app_assoc. reflexivity.
Qed.

Lemma get_put_Sizes (shape : list Z) (rest : Stream) :
  get_Sizes (length shape) (map ItemSize shape ++ rest) = Returned (shape, rest).
Proof.
  induction shape as [|d shape IH]; cbn; [reflexivity|].
  rewrite IH. reflexivity.
Qed.

Section RoundTrip.

Variable sizeofS : Z.
Variable junk : byte.

(** What [encode] appends to the stream. *)
Lemma encode_valid (t : Tensor) (mem : list byte) (s : Stream) :
  array_ t = Some mem ->
  Z.of_nat (length mem) = size_ t * sizeofS ->
  size_ t * sizeofS < 2 ^ 64 ->
  encode sizeofS t s =
    Returned (s ++ ItemSize (Z.of_nat (length (shape_ t)))
                :: map ItemSize (shape_ t) ++ [ItemBlob mem]).
Proof.
  intros Ha Hlen Hlt. unfold encode, writeBlob, size. rewrite Ha.
  change (default [] (Some mem)) with mem.
  assert (to_Size (size_ t * sizeofS) = Z.of_nat (length mem)) as ->.
  { unfold to_Size. rewrite Z.mod_small; lia. }
  rewrite bool_decide_eq_true_2 by lia.
  rewrite Nat2Z.id, firstn_all, put_Sizes. unfold put_Size.
  rewrite <- !app_assoc. reflexivity.
Qed.

(** C8.  A valid tensor of positive size, encoded and decoded again, gives
    a tensor of the same shape and size whose storage holds the same bytes,
    hence the same elements; decoding uses up exactly what encoding
    appended. *)
Theorem encode_decode (t : Tensor) (rest : Stream) :
  valid sizeofS t ->
  0 < size t ->
  exists enc t',
    encode sizeofS t [] = Returned enc
    /\ Tensor_of_stream sizeofS junk (enc ++ rest) = Returned (t', rest)
    /\ shape_ t' = shape_ t
    /\ size t' = size t
    /\ array_ t' = array_ t
    /\ forall i, element sizeofS t' i = element sizeofS t i.
Proof.
  intros (Hsize & Hlt & mem & Ha & Hlen) Hpos. unfold size in *.
  rewrite (encode_valid t mem [] Ha Hlen Hlt). cbn [app].
  eexists. exists (mkTensor (Some mem) (size_ t) (shape_ t) true).
  split; [reflexivity|].
  split; [|cbn; unfold element; cbn; rewrite Ha; auto].
  unfold Tensor_of_stream. cbn [get_Size app Outcome_bind].
  rewrite Nat2Z.id, <- app_assoc, get_put_Sizes. cbn [Outcome_bind shape_ array_ size_ own_].
  unfold resize, size. cbn [size_].
  rewrite bool_decide_eq_true_2 by lia.
  unfold Tensor_of_shape. rewrite <- Hsize.
  assert ((0 <? size_ t) = true) as -> by (apply Z.ltb_lt; lia). cbn [negb].
  unfold new_array. rewrite bool_decide_eq_true_2 by lia.
  cbn [Outcome_bind size_ array_ shape_ own_].
  assert ((0 <? size_ t) = true) as -> by (apply Z.ltb_lt; lia). cbn [negb].
  unfold readBlob. cbn [app].
  assert (to_Size (size_ t * sizeofS) = Z.of_nat (length mem)) as ->.
  { unfold to_Size. rewrite Z.mod_small; lia. }
  rewrite bool_decide_eq_true_2 by reflexivity. cbn [Outcome_bind].
  rewrite drop_ge, app_nil_r; [reflexivity|].
  rewrite repeat_length. lia.
Qed.

(** ** The constructor from a shape *)

(** A tensor built from a shape is valid, owns its storage and has a
    positive size. *)
Lemma Tensor_of_shape_valid (shape : list Z) (t : Tensor) :
  0 < sizeofS ->
  Tensor_of_shape sizeofS junk shape = Returned t ->
  valid sizeofS t /\ 0 < size t /\ shape_ t = shape /\ own_ t = true.
Proof.
  intros HS. unfold Tensor_of_shape, new_array.
  destruct (0 <? flatten shape) eqn:Hpos; [|discriminate]. cbn [negb].
  case_bool_decide as Hlt; [|discriminate]. cbn [Outcome_bind].
  intros [= <-]. apply Z.ltb_lt in Hpos.
  unfold valid, size. cbn.
  split; [|auto]. split; [reflexivity|]. split; [exact Hlt|].
  eexists. split; [reflexivity|].
  rewrite repeat_length.
  nia.
Qed.

End RoundTrip.

Lemma encode_decode_witness :
  let t := mkTensor (Some [x01; x02; x03; x04]) 2 [2; 1] false in
  exists enc t',
    encode 2 t [] = Returned enc
    /\ Tensor_of_stream 2 x00 (enc ++ []) = Returned (t', [])
    /\ shape_ t' = [2; 1]
    /\ array_ t' = Some [x01; x02; x03; x04].
Proof.
  cbv zeta.
  destruct (encode_decode 2 x00 (mkTensor (Some [x01; x02; x03; x04]) 2 [2; 1] false) [])
    as (enc & t' & He & Hd & Hs & _ & Ha & _).
  - split; [reflexivity|]. split; [reflexivity|].
    exists [x01; x02; x03; x04]. split; reflexivity.
  - reflexivity.
  - exists enc, t'. auto.
Defined.

(** Once the accumulator of [flatten] is 0 it stays 0, and a dimension 0
    makes it 0. *)
Lemma flatten_acc_zero (shape : list Z) :
  fold_left (fun init d => to_int (multiplies_Size init d)) shape 0 = 0.
Proof. induction shape as [|d shape IH]; cbn; [reflexivity | exact IH]. Qed.

Lemma flatten_zero_dimension (shape : list Z) :
  In 0 shape -> flatten shape = 0.
Proof.
  unfold flatten. generalize 1. induction shape as [|d shape IH]; intros init Hin.
  - destruct Hin.
  - cbn [fold_left]. destruct Hin as [->|Hin].
    + unfold multiplies_Size. change (to_Size 0) with 0.
      rewrite Z.mul_0_r. change (to_int (to_Size 0)) with 0.
      rewrite flatten_acc_zero. reflexivity.
    + apply IH. exact Hin.
Qed.

(** A shape with a dimension 0 is refused by the constructor. *)
Lemma Tensor_of_shape_zero_dimension (sizeofS : Z) (junk : byte) (shape : list Z) :
  In 0 shape ->
  Tensor_of_shape sizeofS junk shape = Thrown (AssertionFailed "size() > 0").
Proof.
  intros Hin. unfold Tensor_of_shape.
  rewrite (flatten_zero_dimension shape Hin). reflexivity.
Qed.

(** Where the product of the dimensions fits in a positive [int],
    [flatten] is that product. *)
Lemma flatten_acc_small (shape : list Z) (init : Z) :
  Forall (fun d => 0 < d) shape ->
  0 <= init ->
  init * product shape < 2 ^ 31 ->
  fold_left (fun init d => to_int (multiplies_Size init d)) shape init = init * product shape.
Proof.
  revert init. induction shape as [|d shape IH]; intros init Hall Hinit Hlt.
  - cbn. lia.
  - apply Forall_cons in Hall as [Hd Hall]. cbn [fold_left product fold_right] in *.
    fold (product shape) in *.
    assert (1 <= product shape) as Hp.
    { clear -Hall. induction Hall as [|x l Hx _ IHl]; cbn; [lia|].
      fold (product l). nia. }
    destruct (decide (init = 0)) as [->|Hne].
    + unfold multiplies_Size. change (to_Size 0) with 0. rewrite Z.mul_0_l.
      change (to_int (to_Size 0)) with 0. rewrite flatten_acc_zero. lia.
    + assert (init * d < 2 ^ 31) by nia.
      assert (d < 2 ^ 31) by nia.
      assert (to_int (multiplies_Size init d) = init * d) as ->.
      { unfold multiplies_Size, to_int, to_Size.
        rewrite (Z.mod_small init), (Z.mod_small d) by lia.
        rewrite (Z.mod_small (init * d)) by nia.
        rewrite Z.mod_small by nia. lia. }
      rewrite IH; [lia | exact Hall | nia | nia].
Qed.

Lemma flatten_small (shape : list Z) :
  Forall (fun d => 0 < d) shape ->
  product shape < 2 ^ 31 ->
  flatten shape = product shape.
Proof.
  intros Hall Hlt. unfold flatten.
  rewrite flatten_acc_small by (try assumption; lia).
  unfold to_Size. rewrite Z.mul_1_l.
  assert (1 <= product shape).
  { clear -Hall. induction Hall as [|x l Hx _ IHl]; cbn; [lia|].
    fold (product l). nia. }
  apply Z.mod_small. lia.
Qed.

(** C10: the size of a tensor built from a shape is not always the
    product of the dimensions.  The accumulator of [flatten] is an [int]:
    for the shape [[4294967297]] (2^32 + 1) the constructor succeeds, with
    [size()] 1 and storage for one element. *)
Theorem Tensor_of_shape_size_wraps (junk : byte) :
  Tensor_of_shape 8 junk [4294967297] =
    Returned (mkTensor (Some (repeat junk 8)) 1 [4294967297] true)
  /\ product [4294967297] = 4294967297.
Proof. split; reflexivity. Qed.

End LinalgFacts.

Module MathsMore.
Import Maths MathsFacts.

(** ** [evaluate]: what it leaves alone *)

(** X1.  Evaluating a node never changes a node of the store: the store
    afterwards is the store before, followed by at most one new node, the
    Scalar that is returned. *)
Theorem evaluate_store_frame (h : Heap) (t : addr) (c : context_t) :
  exists r s,
    evaluate t (mkState h c) = (r, s)
    /\ (heap s = h
        \/ exists v, heap s = h ++ [mkExpr (KScalar v) []]
                     /\ r = Returned (Some (length h)))
    /\ forall a n, h !! a = Some n -> heap s !! a = Some n.
Proof.
  assert (exists r s, evaluate t (mkState h c) = (r, s)
    /\ (heap s = h
        \/ exists v, heap s = h ++ [mkExpr (KScalar v) []]
                     /\ r = Returned (Some (length h)))) as (r & s & E & H).
  { unfold evaluate, bind, deref. cbn [heap].
    destruct (h !! t) as [this|]; [|eauto 6].
    destruct (kind this); try (cbn; eauto 6).
    unfold Count_evaluate, bind, param_in. cbn [heap ctx].
    destruct (Expr_param h this 0 (Some c)) as [[p|e] [c'|]]; cbn [heap]; eauto 6;
      unfold deref; cbn [heap];
      (destruct p as [a|]; [destruct (h !! a)|]; cbn; eauto 8). }
  exists r, s. split; [exact E|]. split; [exact H|].
  intros a n Ha. destruct H as [->|(v & -> & _)]; [exact Ha|].
  apply lookup_app_l_Some. exact Ha.
Qed.

(** X2.  Evaluating a node never adds to the scope, and takes at most one
    element from it, from the front; the pop is the only operation
    performed on the scope. *)
Theorem evaluate_scope_front (h : Heap) (t : addr) (c : context_t) :
  exists r s taken,
    evaluate t (mkState h c) = (r, s)
    /\ queue c = taken ++ queue (ctx s)
    /\ trace (ctx s) = trace c ++ map Popped taken
    /\ length taken <= 1.
Proof.
  pose proof (evaluate_scope h t c) as HE.
  destruct (evaluate t (mkState h c)) as [r s].
  destruct HE as ([Hc|(this & a & e & rest & _ & _ & _ & _ & Hq & Hc)] & _ & _).
  - exists r, s, []. rewrite Hc. cbn. rewrite app_nil_r. auto.
  - exists r, s, [e]. rewrite Hc. cbn. auto.
Qed.

(** ** [Count] over any operand *)

(** X3.  A Count node whose operand is a node other than a placeholder
    evaluates to a new Scalar holding the number of arguments of the
    operand; the operand itself is not evaluated (a Count over a Count gives
    1), and the scope is not touched. *)
Theorem Count_evaluate_operand
  (h : Heap) (self a : addr) (this n : Expr) (c : context_t) :
  h !! self = Some this ->
  kind this = KCount ->
  args_ this !! 0 = Some (Some a) ->
  h !! a = Some n ->
  kind n <> KUndef ->
  evaluate self (mkState h c) =
    (Returned (Some (length h)),
     mkState (h ++ [mkExpr (KScalar (Z.of_nat (length (args_ n)))) []]) c).
Proof.
  intros Hself Hk Ha Hn Hne.
  unfold evaluate, bind, deref. cbn [heap]. rewrite Hself, Hk.
  unfold Count_evaluate, bind, param_in. cbn [heap ctx].
  rewrite (Expr_param_slot h this 0 c a Ha).
  unfold Undef_is. rewrite Hn.
  rewrite bool_decide_eq_false_2 by exact Hne.
  unfold deref. cbn [heap]. rewrite Hn. reflexivity.
Qed.

Lemma Count_evaluate_operand_witness :
  evaluate 2 (mkState store2 new_ctx) =
    (Returned (Some 3), mkState (store2 ++ [mkExpr (KScalar 1) []]) new_ctx).
Proof.
  apply (Count_evaluate_operand store2 2 1 (mkExpr KCount [Some 1])
           (mkExpr KCount [Some 0]) new_ctx).
  - reflexivity.
  - reflexivity.
  - reflexivity.
  - reflexivity.
  - discriminate.
Defined.

(** ** Binding a placeholder *)

(** X4.  In any store, [count(undef())] evaluated with one argument that
    points to a node returns a new Scalar holding the number of arguments
    of that node: the argument takes the place of the placeholder, the
    scope ends empty, and the argument is pushed once and popped once. *)
Theorem eval_count_undef (h : Heap) (e : addr) (n : Expr) :
  h !! e = Some n ->
  let h2 := h ++ [mkExpr KUndef []; mkExpr KCount [Some (length h)]] in
  let c := S (length h) in
  (u <- undef ;; count u) (mkState h new_ctx) = (Returned (Some c), mkState h2 new_ctx)
  /\ Expr_eval1 c (Some e) h2 =
       (Returned (Some (length h2)),
        mkState (h2 ++ [mkExpr (KScalar (Z.of_nat (length (args_ n)))) []])
                (mkCtx [] [Pushed (Some e); Popped (Some e)])).
Proof.
  intros He h2 c. split.
  - unfold bind, undef, count, alloc. cbn [heap ctx].
    rewrite length_app. cbn [length]. rewrite Nat.add_1_r.
    rewrite <- app_assoc. reflexivity.
  - rewrite Expr_eval1_args, Expr_eval_args_unfold. cbn [map].
    assert (h2 !! c = Some (mkExpr KCount [Some (length h)])) as Hc.
    { subst h2 c. rewrite lookup_app_r by lia.
      replace (S (length h) - length h) with 1 by lia. reflexivity. }
    assert (h2 !! length h = Some (mkExpr KUndef [])) as Hu.
    { subst h2. rewrite lookup_app_r by lia. rewrite Nat.sub_diag. reflexivity. }
    assert (h2 !! e = Some n) as He2.
    { subst h2. apply lookup_app_l_Some. exact He. }
    unfold evaluate, bind, deref. cbn [heap]. unfold addr in *. rewrite Hc. cbn [kind].
    unfold Count_evaluate, bind, param_in. cbn [heap ctx].
    rewrite (Expr_param_slot h2 _ 0 _ (length h)) by reflexivity.
    unfold Undef_is. unfold addr in *. rewrite Hu. cbn [kind].
    rewrite bool_decide_eq_true_2 by reflexivity. cbn [queue trace app].
    unfold deref. cbn [heap]. unfold addr in *. rewrite He2. reflexivity.
Qed.

Lemma eval_count_undef_witness :
  Expr_eval1 7 (Some 4) (store1 ++ [mkExpr KUndef []; mkExpr KCount [Some 6]]) =
    (Returned (Some 8),
     mkState ((store1 ++ [mkExpr KUndef []; mkExpr KCount [Some 6]])
                ++ [mkExpr (KScalar 2) []])
             (mkCtx [] [Pushed (Some 4); Popped (Some 4)])).
Proof.
  apply (eval_count_undef store1 4 (mkExpr KList [Some 2; Some 3])).
  reflexivity.
Defined.

(** ** The mutating [param] *)

(** The store after [param(i, p)]: writing the value a slot holds already
    is the same as not writing. *)
Lemma Expr_param_set_ok (h : Heap) (self : addr) (this : Expr) (i : nat) (p : addr) :
  h !! self = Some this ->
  i < length (args_ this) ->
  Expr_param_set self i (Some p) h =
    (Returned tt, <[self := mkExpr (kind this) (<[i := Some p]> (args_ this))]> h).
Proof.
  intros Hself Hi. unfold Expr_param_set. rewrite Hself.
  rewrite bool_decide_eq_true_2 by exact Hi. cbn [negb].
  rewrite bool_decide_eq_true_2 by eauto. cbn [negb].
  destruct (lookup_lt_is_Some_2 (args_ this) i Hi) as [old Hold].
  rewrite Hold. change (default None (Some old)) with old.
  case_bool_decide as Hne; [reflexivity|].
  assert (old = Some p) as -> by (destruct (decide (Some p = old)); congruence).
  rewrite (list_insert_id _ _ _ Hold).
  destruct this as [k args]. cbn [kind args_].
  f_equal. symmetry. apply list_insert_id. exact Hself.
Qed.

(** X5.  What [param(i, p)] writes, [param(i)] reads back: without a scope
    always, and with a scope whenever [p] is not a placeholder, in which
    case the scope is left as it is. *)
Theorem param_set_then_param (h : Heap) (self : addr) (this : Expr) (i : nat) (p : addr) :
  h !! self = Some this ->
  i < length (args_ this) ->
  exists h' this',
    Expr_param_set self i (Some p) h = (Returned tt, h')
    /\ h' !! self = Some this'
    /\ Expr_param h' this' i None = (Returned (Some p), None)
    /\ (Undef_is h' (Some p) = false ->
        forall c, Expr_param h' this' i (Some c) = (Returned (Some p), Some c)).
Proof.
  intros Hself Hi.
  eexists. eexists. split; [apply (Expr_param_set_ok h self this i p Hself Hi)|].
  assert (<[i := Some p]> (args_ this) !! i = Some (Some p)) as Hslot
    by (apply list_lookup_insert_eq; exact Hi).
  split; [apply list_lookup_insert_eq; eapply lookup_lt_Some; exact Hself|].
  split; [apply param_no_scope; exact Hslot|].
  intros Hu c. rewrite (Expr_param_slot _ _ i c p) by exact Hslot.
  rewrite Hu. reflexivity.
Qed.

Lemma param_set_then_param_witness :
  exists h' this',
    Expr_param_set 4 0 (Some 3) store1 = (Returned tt, h')
    /\ h' !! 4 = Some this'
    /\ Expr_param h' this' 0 None = (Returned (Some 3), None).
Proof.
  destruct (param_set_then_param store1 4 (mkExpr KList [Some 2; Some 3]) 0 3)
    as (h' & this' & Hset & Hget & Hread & _).
  - reflexivity.
  - simpl; lia.
  - exists h', this'. auto.
Defined.

(** X6.  On a node of the store, [param(i, p)] returns normally exactly
    when [i] is in range and [p] is not null; when it throws, it is the
    assertion on the index (checked first) or the one on [p], and the store
    is left as it was. *)
Theorem param_set_failure (h : Heap) (self : addr) (this : Expr) (i : nat) (p : ExpPtr) :
  h !! self = Some this ->
  ((exists h', Expr_param_set self i p h = (Returned tt, h'))
     <-> (i < length (args_ this) /\ p <> None))
  /\ (length (args_ this) <= i ->
      Expr_param_set self i p h = (Thrown (AssertionFailed "i < args_.size()"), h))
  /\ (i < length (args_ this) -> p = None ->
      Expr_param_set self i p h = (Thrown (AssertionFailed "p"), h)).
Proof.
  intros Hself.
  assert (length (args_ this) <= i ->
    Expr_param_set self i p h = (Thrown (AssertionFailed "i < args_.size()"), h)) as Hidx.
  { intros Hge. unfold Expr_param_set. rewrite Hself.
    rewrite bool_decide_eq_false_2 by lia. reflexivity. }
  assert (i < length (args_ this) -> p = None ->
    Expr_param_set self i p h = (Thrown (AssertionFailed "p"), h)) as Hnull.
  { intros Hi ->. unfold Expr_param_set. rewrite Hself.
    rewrite bool_decide_eq_true_2 by exact Hi. cbn [negb].
    rewrite bool_decide_eq_false_2 by (intros [? ?]; discriminate). reflexivity. }
  split; [|split; assumption].
  split.
  - intros [h' Hret].
    destruct (decide (i < length (args_ this))) as [Hi|Hi].
    + split; [exact Hi|]. intros ->. rewrite (Hnull Hi eq_refl) in Hret. discriminate.
    + rewrite Hidx in Hret by lia. discriminate.
  - intros [Hi Hp]. destruct p as [a|]; [|congruence].
    eexists. apply (Expr_param_set_ok h self this i a Hself Hi).
Qed.

Lemma param_set_failure_witness :
  Expr_param_set 4 2 (Some 3) store1 = (Thrown (AssertionFailed "i < args_.size()"), store1)
  /\ Expr_param_set 4 1 None store1 = (Thrown (AssertionFailed "p"), store1).
Proof.
  destruct (param_set_failure store1 4 (mkExpr KList [Some 2; Some 3]) 2 (Some 3) eq_refl)
    as (_ & Hidx & _).
  destruct (param_set_failure store1 4 (mkExpr KList [Some 2; Some 3]) 1 None eq_refl)
    as (_ & _ & Hnull).
  split.
  - apply Hidx. simpl; lia.
  - apply Hnull; [simpl; lia | reflexivity].
Defined.

(** X7.  Two writes to the same slot leave the store as the second write
    alone does. *)
Theorem param_set_twice (h h1 : Heap) (self : addr) (this : Expr) (i : nat) (p q : addr) :
  h !! self = Some this ->
  i < length (args_ this) ->
  Expr_param_set self i (Some p) h = (Returned tt, h1) ->
  Expr_param_set self i (Some q) h1 = Expr_param_set self i (Some q) h.
Proof.
  intros Hself Hi Hfirst.
  rewrite (Expr_param_set_ok h self this i p Hself Hi) in Hfirst.
  injection Hfirst as <-.
  pose proof (lookup_lt_Some _ _ _ Hself) as Hlt.
  rewrite (Expr_param_set_ok _ self (mkExpr (kind this) (<[i := Some p]> (args_ this))) i q);
    [ | apply list_lookup_insert_eq; exact Hlt
      | cbn [args_]; rewrite length_insert; exact Hi ].
  rewrite (Expr_param_set_ok h self this i q Hself Hi).
  cbn [kind args_].
  rewrite list_insert_insert_eq, list_insert_insert_eq. reflexivity.
Qed.

Lemma param_set_twice_witness :
  Expr_param_set 4 0 (Some 5) (Expr_param_set 4 0 (Some 3) store1).2 =
    Expr_param_set 4 0 (Some 5) store1.
Proof.
  apply (param_set_twice store1 _ 4 (mkExpr KList [Some 2; Some 3]) 0 3 5).
  - reflexivity.
  - simpl; lia.
  - reflexivity.
Defined.

(** ** The four [eval] *)

(** X8.  The four overloads of [eval] are one function: [eval()],
    [eval(e)] and [eval(a, b)] do what [eval(args)] does on the lists of no,
    one and two arguments.  [eval()] has no final assertion, and needs
    none: the scope it starts from is empty and stays so. *)
Theorem eval_overloads (h : Heap) (self : addr) (a b : ExpPtr) :
  Expr_eval self h = Expr_eval_args self [] h
  /\ Expr_eval1 self a h = Expr_eval_args self [a] h
  /\ Expr_eval2 self a b h = Expr_eval_args self [a; b] h.
Proof.
  split; [|split; reflexivity].
  rewrite Expr_eval_args_unfold. cbn [map].
  unfold Expr_eval, run, bind, Expr_optimise, ret, evaluate_ptr, new_ctx.
  pose proof (evaluate_scope h self (mkCtx [] [])) as HE.
  destruct (evaluate self (mkState h (mkCtx [] []))) as [r s].
  destruct HE as ([Hc|(? & ? & ? & ? & _ & _ & _ & _ & Hq & _)] & _ & _);
    [|discriminate Hq].
  rewrite Hc. destruct r; reflexivity.
Qed.

(** X9.  With the nodes of Exp.cc and Count.cc, [eval(args)] returns only
    with the scope empty and with at most one argument supplied: none, or
    exactly one, which was pushed and then taken by a Count node whose slot
    holds a placeholder.  With two or more arguments it does not return. *)
Theorem eval_args_returns (h : Heap) (self : addr) (args : args_t) (v : ExpPtr) (s : State) :
  Expr_eval_args self args h = (Returned v, s) ->
  queue (ctx s) = []
  /\ (length args <= 1)%nat
  /\ ((args = [] /\ trace (ctx s) = [])
      \/ exists e this a,
           args = [e] /\ trace (ctx s) = [Pushed e; Popped e]
           /\ h !! self = Some this /\ kind this = KCount
           /\ args_ this !! 0 = Some (Some a) /\ Undef_is h (Some a) = true).
Proof.
  rewrite Expr_eval_args_unfold.
  pose proof (evaluate_scope h self (mkCtx args (map Pushed args))) as HE.
  destruct (evaluate self (mkState h (mkCtx args (map Pushed args)))) as [[v'|e] s'];
    [|discriminate].
  destruct HE as (Hc & _ & _). cbn [queue trace] in Hc.
  destruct (ctx_empty (ctx s')) eqn:Hempty; [|discriminate].
  intros [= <- <-]. unfold ctx_empty in Hempty.
  destruct Hc as [Hc|(this & a & e & rest & Hself & Hk & Ha & Hu & Hq & Hc)];
    rewrite Hc in *; cbn [queue trace] in *.
  - destruct args; [|discriminate].
    split; [reflexivity|]. split; [cbn; lia|]. left. split; reflexivity.
  - destruct rest; [|discriminate]. subst args.
    split; [reflexivity|]. split; [cbn; lia|].
    right. exists e, this, a. auto 10.
Qed.

Lemma eval_args_returns_witness :
  queue (ctx (Expr_eval_args 1 [Some 4] store1).2) = []
  /\ (length [Some 4] <= 1)%nat.
Proof.
  destruct (eval_args_returns store1 1 [Some 4] (Some 6) (Expr_eval_args 1 [Some 4] store1).2)
    as (Hq & Hl & _).
  - reflexivity.
  - split; [exact Hq | exact Hl].
Defined.

End MathsMore.

Module LinalgMore.
Import Linalg LinalgFacts.

Local Open Scope Z_scope.

Section Tensor.

Variable sizeofS : Z.
Variable junk : byte.
Hypothesis sizeofS_pos : 0 < sizeofS.

(** ** Construction *)

(** X10.  For a shape of positive dimensions whose product fits in a
    positive [int] (and whose storage fits in the address space), the
    constructor returns an owning tensor of that shape whose [size()] is
    the product of the dimensions, with storage for that many elements. *)
Theorem Tensor_of_shape_product (shape : list Z) :
  Forall (fun d => 0 < d) shape ->
  product shape < 2 ^ 31 ->
  product shape * sizeofS < 2 ^ 64 ->
  Tensor_of_shape sizeofS junk shape =
    Returned (mkTensor (Some (repeat junk (Z.to_nat (product shape * sizeofS))))
                       (product shape) shape true).
Proof.
  intros Hall Hsmall Hfit. unfold Tensor_of_shape, new_array.
  rewrite (flatten_small shape Hall Hsmall).
  assert (1 <= product shape) as Hp.
  { clear -Hall. induction Hall as [|x l Hx _ IHl]; cbn; [lia|].
    fold (product l). nia. }
  assert ((0 <? product shape) = true) as -> by (apply Z.ltb_lt; lia).
  cbn [negb]. rewrite bool_decide_eq_true_2 by exact Hfit. reflexivity.
Qed.

(** X11.  A shape with a dimension 0 is refused wherever storage would be
    set up for it: by the constructor from a shape, by the constructor from
    existing data, and by [resize] on a tensor that is not empty. *)
Theorem zero_dimension_refused (shape : list Z) (array : option (list byte)) (t : Tensor) :
  In 0 shape ->
  Tensor_of_shape sizeofS junk shape = Thrown (AssertionFailed "size() > 0")
  /\ Tensor_of_data array shape = Thrown (AssertionFailed "size() > 0")
  /\ (size t <> 0 ->
      resize sizeofS junk t shape = Thrown (AssertionFailed "size() > 0")).
Proof.
  intros Hin. pose proof (flatten_zero_dimension shape Hin) as Hz.
  unfold resize, Tensor_of_shape, Tensor_of_data. rewrite Hz. cbn.
  split; [reflexivity|]. split; [reflexivity|].
  intros Hne. rewrite bool_decide_eq_true_2 by exact Hne. reflexivity.
Qed.

(** X12.  On an empty tensor (size 0, as the default constructor leaves
    it) [resize] to a shape with a dimension 0 does not fail: it only
    replaces the shape, and the tensor stays empty, without storage. *)
Theorem resize_empty_zero_dimension (t : Tensor) (shape : list Z) :
  size t = 0 ->
  In 0 shape ->
  resize sizeofS junk t shape = Returned (mkTensor (array_ t) 0 shape (own_ t)).
Proof.
  intros Hsz Hin. unfold resize.
  rewrite (flatten_zero_dimension shape Hin).
  rewrite bool_decide_eq_false_2 by (rewrite Hsz; auto).
  unfold size in Hsz. rewrite Hsz. reflexivity.
Qed.

(** ** Copying *)

(** X13.  Copying a valid tensor that is not empty gives a tensor of the
    same shape and size whose storage holds the same bytes, and which owns
    its storage whether or not the original does; assignment gives [this]
    that same copy, whatever it held before. *)
Theorem Tensor_copy_valid (this other : Tensor) :
  valid sizeofS other ->
  0 < size other ->
  Tensor_copy sizeofS junk other =
    Returned (mkTensor (array_ other) (size_ other) (shape_ other) true)
  /\ Tensor_assign sizeofS junk this other =
    Returned (mkTensor (array_ other) (size_ other) (shape_ other) true).
Proof.
  intros (Hsize & Hlt & mem & Ha & Hlen) Hpos. unfold size in *.
  assert (Tensor_copy sizeofS junk other =
    Returned (mkTensor (array_ other) (size_ other) (shape_ other) true)) as Hcopy.
  { unfold Tensor_copy, new_array, size. cbn [size_].
    rewrite bool_decide_eq_true_2 by exact Hlt. cbn [Outcome_bind size_ array_].
    assert ((0 <? size_ other) = true) as -> by (apply Z.ltb_lt; lia).
    cbn [negb]. rewrite bool_decide_eq_true_2 by eauto. cbn [negb].
    rewrite Ha. unfold memcpy, to_Size.
    rewrite Z.mod_small by lia.
    rewrite bool_decide_eq_true_2 by (rewrite repeat_length; lia).
    cbn [Outcome_bind shape_ own_ size_].
    rewrite <- Hlen, Nat2Z.id, firstn_all, drop_ge, app_nil_r
      by (rewrite repeat_length; lia).
    reflexivity. }
  split; [exact Hcopy|].
  unfold Tensor_assign. rewrite Hcopy. reflexivity.
Qed.

(** X14.  An empty tensor cannot be copied or assigned from: the copy
    constructor allocates, then fails its assertion on the size. *)
Theorem Tensor_copy_empty (this other : Tensor) :
  size other = 0 ->
  Tensor_copy sizeofS junk other = Thrown (AssertionFailed "size() > 0")
  /\ Tensor_assign sizeofS junk this other = Thrown (AssertionFailed "size() > 0").
Proof.
  intros Hz.
  assert (Tensor_copy sizeofS junk other = Thrown (AssertionFailed "size() > 0")) as Hcopy.
  { unfold Tensor_copy, new_array, size in *. rewrite Hz. reflexivity. }
  split; [exact Hcopy|]. unfold Tensor_assign. rewrite Hcopy. reflexivity.
Qed.

End Tensor.

Lemma Tensor_of_shape_product_witness :
  Tensor_of_shape 8 x00 [2; 3] =
    Returned (mkTensor (Some (repeat x00 48)) 6 [2; 3] true).
Proof.
  apply (Tensor_of_shape_product 8 x00 [2; 3]).
  - repeat constructor.
  - reflexivity.
  - reflexivity.
Defined.

Lemma zero_dimension_refused_witness :
  Tensor_of_shape 8 x00 [2; 0; 3] = Thrown (AssertionFailed "size() > 0").
Proof.
  apply (zero_dimension_refused 8 x00 [2; 0; 3] None (Tensor_default)).
  simpl. auto.
Defined.

Lemma resize_empty_zero_dimension_witness :
  resize 8 x00 Tensor_default [0; 5] = Returned (mkTensor None 0 [0; 5] false).
Proof.
  apply (resize_empty_zero_dimension 8 x00 Tensor_default [0; 5]).
  - reflexivity.
  - simpl. auto.
Defined.

Lemma Tensor_copy_valid_witness :
  Tensor_copy 2 x00 (mkTensor (Some [x01; x02; x03; x04]) 2 [2; 1] false) =
    Returned (mkTensor (Some [x01; x02; x03; x04]) 2 [2; 1] true).
Proof.
  apply (Tensor_copy_valid 2 x00 ltac:(lia) Tensor_default
           (mkTensor (Some [x01; x02; x03; x04]) 2 [2; 1] false)).
  - split; [reflexivity|]. split; [reflexivity|].
    exists [x01; x02; x03; x04]. split; reflexivity.
  - reflexivity.
Defined.

Lemma Tensor_copy_empty_witness :
  Tensor_copy 8 x00 Tensor_default = Thrown (AssertionFailed "size() > 0").
Proof.
  apply (Tensor_copy_empty 8 x00 Tensor_default Tensor_default).
  reflexivity.
Defined.

(** ** [resize] and the constructor from a stream *)

Lemma ex_and_l (A : Type) (P : Prop) (Q : A -> Prop) :
  P /\ (exists a, Q a) -> exists a, P /\ Q a.
Proof. intros [HP [a HQ]]. eauto. Qed.

Lemma get_Sizes_inv (n : nat) (s rest : Stream) (vs : list Z) :
  get_Sizes n s = Returned (vs, rest) ->
  s = map ItemSize vs ++ rest /\ length vs = n.
Proof.
  revert s vs. induction n as [|n IH]; intros s vs; cbn.
  - intros [= <- <-]. split; reflexivity.
  - destruct s as [|[v|b] s]; cbn; try discriminate.
    destruct (get_Sizes n s) as [[vs' rest']|] eqn:Hn; cbn; [|discriminate].
    intros [= <- <-]. destruct (IH s vs' Hn) as [-> <-]. split; reflexivity.
Qed.

Section Resize.

Variable sizeofS : Z.
Variable junk : byte.
Hypothesis sizeofS_pos : 0 < sizeofS.

(** X15.  [resize] keeps a valid tensor valid.  When the new shape
    flattens to the present size, storage and ownership are kept and only
    the shape changes; otherwise the tensor gets storage of its own. *)
Theorem resize_valid (t t' : Tensor) (shape : list Z) :
  valid sizeofS t ->
  resize sizeofS junk t shape = Returned t' ->
  valid sizeofS t'
  /\ shape_ t' = shape
  /\ size t' = flatten shape
  /\ (flatten shape = size t -> array_ t' = array_ t /\ own_ t' = own_ t)
  /\ (flatten shape <> size t -> own_ t' = true).
Proof.
  intros (Hsize & Hlt & mem & Ha & Hlen). unfold resize.
  case_bool_decide as Hne.
  - destruct (Tensor_of_shape sizeofS junk shape) as [m|] eqn:Hm; [|discriminate].
    cbn. intros [= <-].
    destruct (Tensor_of_shape_valid sizeofS junk shape m sizeofS_pos Hm)
      as (Hv & _ & Hs & Ho).
    split; [exact Hv|]. split; [exact Hs|].
    split; [unfold size; rewrite (proj1 Hv), Hs; reflexivity|].
    split; [intros Heq; congruence | intros _; exact Ho].
  - intros [= <-]. unfold valid, size in *. cbn.
    assert (size_ t = flatten shape) as Heq
      by (destruct (decide (size_ t = flatten shape)); [assumption | contradiction]).
    split; [split; [exact Heq | split; [exact Hlt | eauto]]|].
    split; [reflexivity|]. split; [exact Heq|].
    split; [auto | congruence].
Qed.

(** X16.  Whatever the constructor from a stream returns is a valid,
    owning tensor that is not empty, and the stream read is exactly its
    encoding: the number of dimensions, the dimensions, and one blob
    holding the bytes of its storage. *)
Theorem Tensor_of_stream_valid (s rest : Stream) (t : Tensor) :
  Tensor_of_stream sizeofS junk s = Returned (t, rest) ->
  valid sizeofS t
  /\ 0 < size t
  /\ own_ t = true
  /\ exists n blob,
       s = ItemSize n :: map ItemSize (shape_ t) ++ ItemBlob blob :: rest
       /\ Z.to_nat n = length (shape_ t)
       /\ array_ t = Some blob
       /\ (0 <= n -> encode sizeofS t [] = Returned (ItemSize n :: map ItemSize (shape_ t) ++ [ItemBlob blob])).
Proof.
  unfold Tensor_of_stream.
  destruct s as [|[n|b] s]; cbn [get_Size Outcome_bind]; try discriminate.
  destruct (get_Sizes (Z.to_nat n) s) as [[shape s2]|] eqn:Hshape;
    cbn [Outcome_bind]; [|discriminate].
  destruct (get_Sizes_inv _ _ _ _ Hshape) as [-> Hn].
  cbn [array_ size_ shape_ own_].
  unfold resize, size. cbn [size_].
  case_bool_decide as Hne; [|cbn; discriminate].
  destruct (Tensor_of_shape sizeofS junk shape) as [m|] eqn:Hm;
    cbn [Outcome_bind]; [|discriminate].
  destruct (Tensor_of_shape_valid sizeofS junk shape m sizeofS_pos Hm)
    as ((Hsize & Hlt & mem & Ha & Hlen) & Hpos & Hs & Ho).
  unfold size in *.
  assert ((0 <? size_ m) = true) as -> by (apply Z.ltb_lt; lia). cbn [negb].
  rewrite Ha. unfold readBlob.
  destruct s2 as [|[v|blob] s3]; cbn [app]; try discriminate.
  assert (to_Size (size_ m * sizeofS) = size_ m * sizeofS) as Hwrap
    by (unfold to_Size; apply Z.mod_small; lia).
  rewrite Hwrap.
  case_bool_decide as Hblob; cbn [Outcome_bind]; [|discriminate].
  intros [= <- <-]. cbn [array_ size_ shape_ own_].
  rewrite drop_ge, app_nil_r by lia.
  split.
  { unfold valid. cbn [array_ size_ shape_].
    split; [exact Hsize|]. split; [exact Hlt|]. exists blob. split; [reflexivity | lia]. }
  split; [exact Hpos|]. split; [exact Ho|].
  exists n, blob. subst shape. split; [reflexivity|].
  split; [lia|]. split; [reflexivity|].
  intros Hn0.
  rewrite (encode_valid sizeofS (mkTensor (Some blob) (size_ m) (shape_ m) (own_ m)) blob [])
    by (cbn; auto; lia).
  cbn [shape_ app]. repeat f_equal. lia.
Qed.

(** X17.  An empty tensor does not survive a round trip: [encode] writes
    it (its shape and an empty blob), and the constructor from a stream
    throws on what was written. *)
Theorem encode_decode_empty (t : Tensor) (rest : Stream) :
  size t = 0 ->
  array_ t = None ->
  exists enc e,
    encode sizeofS t [] = Returned enc
    /\ Tensor_of_stream sizeofS junk (enc ++ rest) = Thrown e.
Proof.
  intros Hz Ha. unfold encode, writeBlob, size in *. rewrite Ha, Hz.
  cbn [default]. change (to_Size (0 * sizeofS)) with 0.
  rewrite bool_decide_eq_true_2 by (cbn; lia).
  rewrite put_Sizes. cbn [put_Size app take Z.to_nat].
  eexists. apply ex_and_l. split; [reflexivity|].
  unfold Tensor_of_stream. cbn [app get_Size Outcome_bind].
  rewrite Nat2Z.id, <- app_assoc, get_put_Sizes.
  cbn [Outcome_bind array_ size_ shape_ own_ app].
  unfold resize, size. cbn [size_].
  case_bool_decide as Hne; [|cbn; eexists; reflexivity].
  unfold Tensor_of_shape, new_array.
  assert (0 <= flatten (shape_ t) < 2 ^ 64) as Hrange
    by (unfold flatten, to_Size; apply Z.mod_pos_bound; lia).
  assert ((0 <? flatten (shape_ t)) = true) as -> by (apply Z.ltb_lt; lia).
  cbn [negb].
  case_bool_decide as Hfit; cbn [Outcome_bind size_ array_]; [|eexists; reflexivity].
  assert ((0 <? flatten (shape_ t)) = true) as -> by (apply Z.ltb_lt; lia).
  cbn [negb]. unfold readBlob, to_Size.
  assert (0 < flatten (shape_ t) * sizeofS) by (apply Z.mul_pos_pos; lia).
  rewrite Z.mod_small by lia.
  rewrite bool_decide_eq_false_2 by (simpl; lia).
  eexists; reflexivity.
Qed.

End Resize.

Lemma resize_valid_witness :
  let t := mkTensor (Some [x01; x02; x03; x04]) 2 [2; 1] false in
  exists t', resize 2 x00 t [1; 2] = Returned t'
             /\ array_ t' = array_ t /\ own_ t' = own_ t.
Proof.
  cbv zeta. eexists. split; [reflexivity|].
  apply (resize_valid 2 x00 ltac:(lia)
           (mkTensor (Some [x01; x02; x03; x04]) 2 [2; 1] false) _ [1; 2]).
  - split; [reflexivity|]. split; [reflexivity|].
    exists [x01; x02; x03; x04]. split; reflexivity.
  - reflexivity.
  - reflexivity.
Defined.

Lemma Tensor_of_stream_valid_witness :
  valid 2 (mkTensor (Some [x01; x02; x03; x04]) 2 [2; 1] true).
Proof.
  apply (Tensor_of_stream_valid 2 x00 ltac:(lia)
           [ItemSize 2; ItemSize 2; ItemSize 1; ItemBlob [x01; x02; x03; x04]] []).
  reflexivity.
Defined.

Lemma encode_decode_empty_witness :
  exists enc e,
    encode 8 Tensor_default [] = Returned enc
    /\ Tensor_of_stream 8 x00 (enc ++ []) = Thrown e.
Proof.
  apply (encode_decode_empty 8 x00 ltac:(lia) Tensor_default []).
  - reflexivity.
  - reflexivity.
Defined.

(** ** [zero] and [fill] *)

Lemma take_drop_repeat {A} (x : A) (j k n : nat) :
  (j + k <= n)%nat -> take k (drop j (repeat x n)) = repeat x k.
Proof.
  intros Hle. replace n with (j + (k + (n - j - k)))%nat by lia.
  rewrite !repeat_app.
  rewrite drop_app_length' by (symmetry; apply repeat_length).
  rewrite take_app_length' by (symmetry; apply repeat_length). reflexivity.
Qed.

Lemma length_concat_replicate {A} (v : list A) (j : nat) :
  length (concat (replicate j v)) = (j * length v)%nat.
Proof. induction j as [|j IH]; cbn; [reflexivity|]. rewrite length_app, IH. reflexivity. Qed.

Lemma take_drop_concat_replicate {A} (v : list A) (j n : nat) :
  (j < n)%nat ->
  take (length v) (drop (j * length v) (concat (replicate n v))) = v.
Proof.
  intros Hlt. replace n with (j + S (n - j - 1))%nat by lia.
  rewrite replicate_add, concat_app. cbn [replicate concat].
  rewrite drop_app_length' by (symmetry; apply length_concat_replicate).
  rewrite take_app_length. reflexivity.
Qed.

Section Fill.

Variable sizeofS : Z.
Variable junk : byte.
Hypothesis sizeofS_pos : 0 < sizeofS.

(** X18.  [zero()] on a valid tensor that is not empty sets every byte of
    the storage, hence every element, to zero, and changes nothing else. *)
Theorem zero_valid (t : Tensor) :
  valid sizeofS t ->
  0 < size t ->
  exists t',
    zero sizeofS t = Returned t'
    /\ size_ t' = size_ t /\ shape_ t' = shape_ t /\ own_ t' = own_ t
    /\ valid sizeofS t'
    /\ forall i, 0 <= i < size t ->
         element sizeofS t' i = repeat x00 (Z.to_nat sizeofS).
Proof.
  intros (Hsize & Hlt & mem & Ha & Hlen) Hpos. unfold size in *.
  unfold zero, size, memset. rewrite Ha.
  assert ((0 <? size_ t) = true) as -> by (apply Z.ltb_lt; lia). cbn [negb].
  unfold to_Size. rewrite Z.mod_small by lia.
  rewrite bool_decide_eq_true_2 by lia. cbn [Outcome_bind].
  rewrite drop_ge, app_nil_r by lia.
  eexists. split; [reflexivity|]. cbn [size_ shape_ own_].
  split; [reflexivity|]. split; [reflexivity|]. split; [reflexivity|].
  split.
  - unfold valid. cbn [size_ shape_ array_].
    split; [exact Hsize|]. split; [exact Hlt|].
    eexists. split; [reflexivity|]. rewrite repeat_length. lia.
  - intros i Hi. unfold element. cbn [array_ default].
    change (default [] (Some ?l)) with l.
    apply take_drop_repeat.
    assert (0 <= i * sizeofS) by nia.
    assert (i * sizeofS + sizeofS <= size_ t * sizeofS) by nia.
    lia.
Qed.

(** The loop of [fill], started at element [i] of storage that ends after
    [n] more elements. *)
Lemma fill_loop_run (value : list byte) (n : nat) (i : Z) (mem : list byte) :
  Z.of_nat (length value) = sizeofS ->
  0 <= i ->
  Z.of_nat (length mem) = (i + Z.of_nat n) * sizeofS ->
  fill_loop sizeofS n i value (Some mem) =
    Returned (Some (take (Z.to_nat (i * sizeofS)) mem ++ concat (replicate n value))).
Proof.
  intros Hv. revert i mem. induction n as [|n IH]; intros i mem Hi Hlen.
  - cbn. rewrite take_ge by lia. rewrite app_nil_r. reflexivity.
  - cbn [fill_loop]. unfold store.
    assert (0 <= i * sizeofS) by nia.
    assert ((i + 1) * sizeofS <= Z.of_nat (length mem)) by nia.
    rewrite bool_decide_eq_true_2 by lia. cbn [Outcome_bind].
    set (off := Z.to_nat (i * sizeofS)).
    assert (length (take off mem) = off) as Hoff by (rewrite length_take; lia).
    rewrite IH; [| lia |].
    + f_equal. f_equal.
      replace (Z.to_nat ((i + 1) * sizeofS)) with (off + length value)%nat by lia.
      rewrite take_app_add' by (symmetry; exact Hoff).
      rewrite take_app_length. cbn [replicate concat].
      rewrite <- !app_assoc. reflexivity.
    + rewrite !length_app, Hoff, length_drop. lia.
Qed.

(** X19.  [fill(value)] on a valid tensor sets every element to [value]
    and changes nothing else; the tensor stays valid. *)
Theorem fill_valid (t : Tensor) (value : list byte) :
  valid sizeofS t ->
  Z.of_nat (length value) = sizeofS ->
  exists t',
    fill sizeofS t value = Returned t'
    /\ size_ t' = size_ t /\ shape_ t' = shape_ t /\ own_ t' = own_ t
    /\ valid sizeofS t'
    /\ forall i, 0 <= i < size t -> element sizeofS t' i = value.
Proof.
  intros (Hsize & Hlt & mem & Ha & Hlen) Hv. unfold size in *.
  assert (0 <= size_ t) as Hnn by nia.
  unfold fill, size. rewrite Ha.
  rewrite (fill_loop_run value _ 0 mem Hv) by lia.
  change (Z.to_nat (0 * sizeofS)) with 0%nat. rewrite take_0.
  cbn [Outcome_bind app].
  eexists. split; [reflexivity|]. cbn [size_ shape_ own_].
  split; [reflexivity|]. split; [reflexivity|]. split; [reflexivity|].
  split.
  - unfold valid. cbn [size_ shape_ array_].
    split; [exact Hsize|]. split; [exact Hlt|].
    eexists. split; [reflexivity|]. rewrite length_concat_replicate. nia.
  - intros i Hi. unfold element. cbn [array_].
    change (default [] (Some ?l)) with l.
    replace (Z.to_nat sizeofS) with (length value) by lia.
    replace (Z.to_nat (i * sizeofS)) with (Z.to_nat i * length value)%nat by nia.
    apply take_drop_concat_replicate. lia.
Qed.

(** X20.  On an empty tensor [zero()] fails its assertion, while
    [fill(value)] returns without touching anything. *)
Theorem zero_fill_empty (t : Tensor) (value : list byte) :
  size t = 0 ->
  zero sizeofS t = Thrown (AssertionFailed "size() > 0")
  /\ fill sizeofS t value = Returned t.
Proof.
  intros Hz. unfold zero, fill. rewrite Hz. cbn.
  split; [reflexivity|]. destruct t; reflexivity.
Qed.

End Fill.

Lemma zero_valid_witness :
  exists t',
    zero 2 (mkTensor (Some [x01; x02; x03; x04]) 2 [2; 1] false) = Returned t'
    /\ array_ t' = Some [x00; x00; x00; x00].
Proof.
  destruct (zero_valid 2 ltac:(lia) (mkTensor (Some [x01; x02; x03; x04]) 2 [2; 1] false))
    as (t' & Hz & _).
  - split; [reflexivity|]. split; [reflexivity|].
    exists [x01; x02; x03; x04]. split; reflexivity.
  - reflexivity.
  - exists t'. split; [exact Hz|].
    vm_compute in Hz. injection Hz as <-. reflexivity.
Defined.

Lemma fill_valid_witness :
  exists t',
    fill 2 (mkTensor (Some [x01; x02; x03; x04]) 2 [2; 1] false) [x0a; x0b] = Returned t'
    /\ array_ t' = Some [x0a; x0b; x0a; x0b].
Proof.
  destruct (fill_valid 2 ltac:(lia) (mkTensor (Some [x01; x02; x03; x04]) 2 [2; 1] false)
              [x0a; x0b])
    as (t' & Hf & _).
  - split; [reflexivity|]. split; [reflexivity|].
    exists [x01; x02; x03; x04]. split; reflexivity.
  - reflexivity.
  - exists t'. split; [exact Hf|].
    vm_compute in Hf. injection Hf as <-. reflexivity.
Defined.

Lemma zero_fill_empty_witness :
  zero 8 Tensor_default = Thrown (AssertionFailed "size() > 0")
  /\ fill 8 Tensor_default [x01] = Returned Tensor_default.
Proof.
  apply (zero_fill_empty 8 Tensor_default [x01]).
  reflexivity.
Defined.

(** ** [operator()] *)

Lemma product_pos (shape : list Z) :
  Forall (fun d => 0 < d) shape -> 1 <= product shape.
Proof.
  intros Hall. induction Hall as [|x l Hx _ IHl]; cbn; [lia|].
  fold (product l). nia.
Qed.

(** Within bounds, the loop neither wraps nor leaves the storage: it adds
    to [idx] the column-major offset of the remaining indices, scaled by
    the product of the dimensions already passed. *)
Lemma call_loop_in_bounds (dims args : list Z) (idx prod nargs : Z) :
  Forall (fun d => 0 < d) dims ->
  in_bounds args dims ->
  0 <= idx < prod ->
  prod * product dims < 2 ^ 64 ->
  call_loop dims args idx prod nargs =
    Returned (idx + prod * colmajor args dims, nargs + Z.of_nat (length dims))
  /\ 0 <= idx + prod * colmajor args dims < prod * product dims.
Proof.
  intros Hall. revert args idx prod nargs.
  induction Hall as [|n dims Hn Hall IH]; intros args idx prod nargs Hin Hidx Hfit.
  - destruct args; [|destruct Hin].
    cbn [call_loop colmajor product fold_right length Z.of_nat].
    rewrite Z.mul_0_r, !Z.add_0_r. split; [reflexivity |].
    clear Hfit. lia.
  - destruct args as [|d args]; [destruct Hin|]. destruct Hin as [Hd Hin].
    cbn [call_loop colmajor product fold_right length] in *. fold (product dims) in *.
    pose proof (product_pos dims Hall) as Hp.
    assert (0 < n * prod) as Hq by (apply Z.mul_pos_pos; lia).
    pose proof (proj1 (Z.le_mul_diag_r (n * prod) (product dims) Hq) Hp).
    assert (0 <= d * prod) by (apply Z.mul_nonneg_nonneg; lia).
    assert ((d + 1) * prod <= n * prod) by (apply Z.mul_le_mono_nonneg_r; lia).
    assert (to_Size (d * prod) = d * prod) as ->
      by (unfold to_Size; apply Z.mod_small; lia).
    assert (to_Size (idx + d * prod) = idx + d * prod) as ->
      by (unfold to_Size; apply Z.mod_small; lia).
    assert (to_Size (prod * n) = prod * n) as ->
      by (unfold to_Size; apply Z.mod_small; lia).
    destruct (IH args (idx + d * prod) (prod * n) (nargs + 1) Hin) as [-> Hb];
      [lia | lia |].
    split; [f_equal; apply pair_equal_spec; split; lia | lia].
Qed.

Lemma colmajor_inj (shape ix jx : list Z) :
  in_bounds ix shape -> in_bounds jx shape ->
  colmajor ix shape = colmajor jx shape -> ix = jx.
Proof.
  revert ix jx. induction shape as [|n shape IH]; intros [|i ix] [|j jx]; cbn;
    try tauto.
  intros [Hi Hix] [Hj Hjx] Heq.
  assert (colmajor ix shape = colmajor jx shape) as Hrest by nia.
  rewrite (IH ix jx Hix Hjx Hrest). f_equal. nia.
Qed.

(** What the loop does with the number of arguments: it counts the
    dimensions, not the arguments, ignores those left over, and runs off
    the end of a list that is too short. *)
Lemma call_loop_args (dims args extra : list Z) (idx prod nargs : Z) :
  (forall r, call_loop dims args idx prod nargs = Returned r ->
             r.2 = nargs + Z.of_nat (length dims))
  /\ (length args = length dims ->
      call_loop dims (args ++ extra) idx prod nargs = call_loop dims args idx prod nargs)
  /\ ((length args < length dims)%nat ->
      call_loop dims args idx prod nargs = Thrown Undefined).
Proof.
  revert args idx prod nargs.
  induction dims as [|n dims IH]; intros args idx prod nargs.
  - cbn. split; [intros r [= <-]; cbn; lia|]. split; [reflexivity | lia].
  - destruct args as [|d args]; cbn [call_loop length app].
    + split; [discriminate|]. split; [discriminate | reflexivity].
    + destruct (IH args (to_Size (idx + to_Size (d * prod))) (to_Size (prod * n)) (nargs + 1))
        as (Hn & Hs & Hf).
      split; [intros r Hr; rewrite (Hn r Hr); lia|].
      split; [intros [= Hl]; exact (Hs Hl) | intros Hl; apply Hf; lia].
Qed.

Section Access.

Variable sizeofS : Z.

(** X21.  On a valid tensor of positive dimensions whose product fits in
    a positive [int], [operator()] with one index per dimension, each
    within its dimension, returns the element at the column-major offset
    of the indices, and that offset lies within the storage. *)
Theorem operator_call_colmajor (t : Tensor) (i : Z) (ix : list Z) :
  valid sizeofS t ->
  Forall (fun d => 0 < d) (shape_ t) ->
  product (shape_ t) < 2 ^ 31 ->
  in_bounds (i :: ix) (shape_ t) ->
  operator_call t i ix = Returned (colmajor (i :: ix) (shape_ t))
  /\ 0 <= colmajor (i :: ix) (shape_ t) < size t.
Proof.
  intros (Hsize & _) Hall Hsmall Hin. unfold operator_call, size.
  rewrite Hsize, (flatten_small _ Hall Hsmall).
  destruct (shape_ t) as [|n dims] eqn:Hshape; [destruct Hin|].
  destruct Hin as [Hi Hin]. apply Forall_cons in Hall as [Hn Hall].
  cbn [product fold_right colmajor] in *. fold (product dims) in *.
  destruct (call_loop_in_bounds dims ix i n 1 Hall Hin Hi) as [-> Hb]; [lia|].
  cbn [Outcome_bind length].
  rewrite bool_decide_eq_true_2 by lia. cbn [negb].
  assert ((i + n * colmajor ix dims <? n * product dims) = true) as ->
    by (apply Z.ltb_lt; lia).
  cbn [negb]. split; [reflexivity | lia].
Qed.

(** X22.  Under the same conditions two index tuples reach the same
    element only if they are the same tuple: the layout has no overlap. *)
Theorem operator_call_injective (t : Tensor) (i j : Z) (ix jx : list Z) :
  valid sizeofS t ->
  Forall (fun d => 0 < d) (shape_ t) ->
  product (shape_ t) < 2 ^ 31 ->
  in_bounds (i :: ix) (shape_ t) ->
  in_bounds (j :: jx) (shape_ t) ->
  operator_call t i ix = operator_call t j jx ->
  i :: ix = j :: jx.
Proof.
  intros (Hsize & _) Hall Hsmall Hin Hjn. unfold operator_call, size.
  rewrite Hsize, (flatten_small _ Hall Hsmall).
  destruct (shape_ t) as [|n dims] eqn:Hshape; [destruct Hin|].
  pose proof Hin as [Hi Hin']. pose proof Hjn as [Hj Hjn'].
  apply Forall_cons in Hall as [Hn Hall].
  cbn [product fold_right] in *. fold (product dims) in *.
  destruct (call_loop_in_bounds dims ix i n 1 Hall Hin' Hi) as [-> Hb]; [lia|].
  destruct (call_loop_in_bounds dims jx j n 1 Hall Hjn' Hj) as [-> Hc]; [lia|].
  cbn [Outcome_bind length].
  rewrite bool_decide_eq_true_2 by lia. cbn [negb].
  assert ((i + n * colmajor ix dims <? n * product dims) = true) as ->
    by (apply Z.ltb_lt; lia).
  assert ((j + n * colmajor jx dims <? n * product dims) = true) as ->
    by (apply Z.ltb_lt; lia).
  cbn [negb]. intros [= Heq].
  apply (colmajor_inj (n :: dims)); [exact Hin | exact Hjn | exact Heq].
Qed.

End Access.

(** X23.  [operator()] cannot tell how many indices it was given: its
    assertion on the number of arguments never fails, indices beyond the
    number of dimensions are ignored, and with too few the call is
    undefined.  A tensor of no dimension fails the first assertion. *)
Theorem operator_call_arguments (t : Tensor) (i : Z) (ix extra : list Z) :
  operator_call t i ix <> Thrown (AssertionFailed "nargs == shape_.size()")
  /\ (S (length ix) = length (shape_ t) ->
      operator_call t i (ix ++ extra) = operator_call t i ix)
  /\ ((0 < length (shape_ t))%nat -> (S (length ix) < length (shape_ t))%nat ->
      operator_call t i ix = Thrown Undefined)
  /\ (shape_ t = [] -> operator_call t i ix = Thrown (AssertionFailed "shape_.size()")).
Proof.
  unfold operator_call. destruct (shape_ t) as [|n dims].
  - split; [discriminate|]. split; [discriminate|]. split; [cbn; lia | reflexivity].
  - destruct (call_loop_args dims ix extra i n 1) as (Hn & Hs & Hf).
    split; [|split; [|split; [|discriminate]]].
    + destruct (call_loop dims ix i n 1) as [[idx nargs]|e] eqn:Hl; cbn [Outcome_bind].
      * rewrite (Hn _ eq_refl : nargs = _).
        rewrite bool_decide_eq_true_2 by (cbn [length]; lia). cbn [negb].
        destruct (idx <? size t); discriminate.
      * intros [= ->]. clear Hn Hs.
        assert (forall ds ar a b c, call_loop ds ar a b c
                  <> Thrown (AssertionFailed "nargs == shape_.size()")) as Hnever.
        { clear. induction ds as [|d0 ds IHd]; intros [|a0 ar] x y z; cbn;
            try discriminate; apply IHd. }
        exact (Hnever _ _ _ _ _ Hl).
    + intros [= Hl]. rewrite (Hs Hl). reflexivity.
    + intros _ Hl. rewrite Hf by (cbn [length] in Hl; lia). reflexivity.
Qed.

Lemma operator_call_colmajor_witness :
  operator_call (mkTensor (Some (repeat x00 48)) 6 [2; 3] true) 1 [2] = Returned 5.
Proof.
  apply (operator_call_colmajor 8 (mkTensor (Some (repeat x00 48)) 6 [2; 3] true) 1 [2]).
  - split; [reflexivity|]. split; [reflexivity|].
    exists (repeat x00 48). split; reflexivity.
  - repeat constructor.
  - reflexivity.
  - cbn. lia.
Defined.

Lemma operator_call_injective_witness :
  operator_call (mkTensor (Some (repeat x00 48)) 6 [2; 3] true) 1 [2] = Returned 5
  /\ [1; 2] = [1; 2].
Proof.
  split; [reflexivity|].
  apply (operator_call_injective 8 (mkTensor (Some (repeat x00 48)) 6 [2; 3] true) 1 1 [2] [2]).
  - split; [reflexivity|]. split; [reflexivity|].
    exists (repeat x00 48). split; reflexivity.
  - repeat constructor.
  - reflexivity.
  - cbn. lia.
  - cbn. lia.
  - reflexivity.
Defined.

Lemma operator_call_arguments_witness :
  operator_call (mkTensor (Some (repeat x00 48)) 6 [2; 3] true) 1 ([2] ++ [7; 7]) =
  operator_call (mkTensor (Some (repeat x00 48)) 6 [2; 3] true) 1 [2].
Proof.
  apply (operator_call_arguments (mkTensor (Some (repeat x00 48)) 6 [2; 3] true) 1 [2] [7; 7]).
  reflexivity.
Defined.

(** ** What the constructors return *)

(** X28.  Whatever the constructor from a shape returns is a valid,
    owning tensor of that shape that is not empty; whatever the constructor
    from existing data returns refers to that data, does not own it, has
    that shape and is not empty either. *)
Theorem constructors_return (sizeofS : Z) (junk : byte)
  (shape : list Z) (array : option (list byte)) (t : Tensor) :
  0 < sizeofS ->
  (Tensor_of_shape sizeofS junk shape = Returned t ->
     valid sizeofS t /\ 0 < size t /\ shape_ t = shape /\ own_ t = true)
  /\ (Tensor_of_data array shape = Returned t ->
      array_ t = array /\ array <> None /\ own_ t = false
      /\ shape_ t = shape /\ size t = flatten shape /\ 0 < size t).
Proof.
  intros HS. split; [apply Tensor_of_shape_valid; exact HS|].
  unfold Tensor_of_data.
  destruct (0 <? flatten shape) eqn:Hpos; [|discriminate]. cbn [negb].
  case_bool_decide as Harr; [|discriminate]. cbn [negb].
  intros [= <-]. apply Z.ltb_lt in Hpos. unfold size. cbn.
  repeat split; try assumption. intros ->. destruct Harr; discriminate.
Qed.

Lemma constructors_return_witness :
  valid 8 (mkTensor (Some (repeat x00 48)) 6 [2; 3] true).
Proof.
  apply (constructors_return 8 x00 [2; 3] None
           (mkTensor (Some (repeat x00 48)) 6 [2; 3] true) ltac:(lia)).
  reflexivity.
Defined.

End LinalgMore.

Module SqlFacts.
Import Sql.

Local Open Scope Z_scope.

Lemma within_test (x : double) (hi : Z) :
  ge_int x 0 && le_int x hi = true <-> within x hi.
Proof.
  unfold within. destruct x as [|neg|q]; cbn [ge_int le_int].
  - split; [discriminate | intros (q & Hq & _); discriminate].
  - split; [destruct neg; discriminate | intros (q & Hq & _); discriminate].
  - rewrite andb_true_iff, !Qle_bool_iff. split.
    + intros [H0 Hhi]. exists q. auto.
    + intros (q' & [= <-] & H0 & Hhi). auto.
Qed.

Lemma to_long_long_floor (q : Q) (hi : Z) :
  (0 <= q)%Q -> (q <= inject_Z hi)%Q ->
  to_long_long (Finite q) = Qfloor q /\ 0 <= Qfloor q <= hi.
Proof.
  intros H0 Hhi. split.
  - destruct q as [n d]. cbn [to_long_long Qnum Qden Qfloor].
    apply Z.quot_div_nonneg; [|lia].
    unfold Qle in H0. cbn in H0. lia.
  - split.
    + change 0 with (Qfloor (inject_Z 0)). apply Qfloor_resp_le. exact H0.
    + rewrite <- (Qfloor_Z hi). apply Qfloor_resp_le. exact Hhi.
Qed.

Lemma eval_two (arg0 arg1 : SQLExpression) (m m1 m2 : bool) (x y : double) :
  arg0 m = (x, m1) -> arg1 m1 = (y, m2) ->
  FunctionTIMESTAMP_eval [arg0; arg1] m =
    if ge_int x 0 && le_int x INT_MAX && ge_int y 0 && le_int y 240000
    then Returned (trunc (of_long_long (to_long_long x * 1000000 + to_long_long y)), m2)
    else Returned (of_long_long 0, true).
Proof.
  intros H0 H1. unfold FunctionTIMESTAMP_eval.
  cbn [lookup list_lookup]. rewrite H0, H1. reflexivity.
Qed.

(** X24.  When the date is a number between 0 and INT_MAX and the time a
    number between 0 and 240000, [eval] returns date * 1000000 + time,
    fractions dropped, and passes on the missing flag as its arguments left
    it.  The result is below 2^53, so the double holds it exactly, and
    date and time can be read back from it. *)
Theorem TIMESTAMP_in_range
  (arg0 arg1 : SQLExpression) (m m1 m2 : bool) (indate intime : Q) :
  arg0 m = (Finite indate, m1) ->
  arg1 m1 = (Finite intime, m2) ->
  (0 <= indate <= inject_Z INT_MAX)%Q ->
  (0 <= intime <= inject_Z 240000)%Q ->
  let stamp := Qfloor indate * 1000000 + Qfloor intime in
  FunctionTIMESTAMP_eval [arg0; arg1] m = Returned (Finite (inject_Z stamp), m2)
  /\ 0 <= stamp < 2 ^ 53
  /\ stamp / 1000000 = Qfloor indate
  /\ stamp mod 1000000 = Qfloor intime.
Proof.
  intros H0 H1 [Hd0 Hd1] [Ht0 Ht1] stamp.
  destruct (to_long_long_floor indate INT_MAX Hd0 Hd1) as [Ed Bd].
  destruct (to_long_long_floor intime 240000 Ht0 Ht1) as [Et Bt].
  unfold INT_MAX in Bd.
  rewrite (eval_two arg0 arg1 m m1 m2 _ _ H0 H1).
  assert (ge_int (Finite indate) 0 && le_int (Finite indate) INT_MAX = true) as Hx
    by (apply within_test; exists indate; auto).
  assert (ge_int (Finite intime) 0 && le_int (Finite intime) 240000 = true) as Hy
    by (apply within_test; exists intime; auto).
  rewrite <- andb_assoc, Hy, Hx. cbn [andb].
  rewrite Ed, Et. fold stamp.
  unfold trunc, of_long_long. cbn [inject_Z Qnum Qden]. rewrite Z.quot_1_r.
  split; [reflexivity|]. subst stamp.
  split; [lia|]. split.
  - symmetry. apply (Z.div_unique _ _ _ (Qfloor intime)); lia.
  - symmetry. apply (Z.mod_unique _ _ (Qfloor indate)); lia.
Qed.

(** X25.  When the date or the time is not a number, or is negative, or
    lies above its bound (INT_MAX, 240000), [eval] returns 0 and sets the
    missing flag. *)
Theorem TIMESTAMP_out_of_range
  (arg0 arg1 : SQLExpression) (m m1 m2 : bool) (x y : double) :
  arg0 m = (x, m1) ->
  arg1 m1 = (y, m2) ->
  ~ (within x INT_MAX /\ within y 240000) ->
  FunctionTIMESTAMP_eval [arg0; arg1] m = Returned (Finite 0, true).
Proof.
  intros H0 H1 Hout. rewrite (eval_two arg0 arg1 m m1 m2 x y H0 H1).
  rewrite <- andb_assoc.
  destruct (ge_int x 0 && le_int x INT_MAX) eqn:Hx;
    destruct (ge_int y 0 && le_int y 240000) eqn:Hy; try reflexivity.
  exfalso. apply Hout. split; apply within_test; assumption.
Qed.

(** X26.  [eval] returns with the missing flag clear exactly when date and
    time are both within range and the arguments left the flag clear: it
    never clears a flag that an argument has set. *)
Theorem TIMESTAMP_missing
  (arg0 arg1 : SQLExpression) (m m1 m2 : bool) (x y : double) :
  arg0 m = (x, m1) ->
  arg1 m1 = (y, m2) ->
  exists r m',
    FunctionTIMESTAMP_eval [arg0; arg1] m = Returned (r, m')
    /\ (m' = false <-> (within x INT_MAX /\ within y 240000 /\ m2 = false)).
Proof.
  intros H0 H1. rewrite (eval_two arg0 arg1 m m1 m2 x y H0 H1).
  rewrite <- andb_assoc.
  pose proof (within_test x INT_MAX) as Wx. pose proof (within_test y 240000) as Wy.
  destruct (ge_int x 0 && le_int x INT_MAX);
    destruct (ge_int y 0 && le_int y 240000); cbn [andb];
    eexists; eexists; (split; [reflexivity|]).
  - split; [intros ->; split; [|split]; tauto | tauto].
  - split; [discriminate | intros (_ & Hy & _); apply Wy in Hy; discriminate].
  - split; [discriminate | intros (Hx & _ & _); apply Wx in Hx; discriminate].
  - split; [discriminate | intros (Hx & _ & _); apply Wx in Hx; discriminate].
Qed.

(** X27.  [output] prints the integer [eval] returns and drops the
    missing flag: an out-of-range date or time prints as 0, as date 0 at
    time 0 does. *)
Theorem TIMESTAMP_output
  (arg0 arg1 : SQLExpression) (m1 m2 : bool) (x y : double) :
  arg0 false = (x, m1) ->
  arg1 m1 = (y, m2) ->
  (~ (within x INT_MAX /\ within y 240000) ->
     FunctionTIMESTAMP_output [arg0; arg1] = Returned 0)
  /\ (forall indate intime,
        x = Finite indate -> y = Finite intime ->
        (0 <= indate <= inject_Z INT_MAX)%Q ->
        (0 <= intime <= inject_Z 240000)%Q ->
        FunctionTIMESTAMP_output [arg0; arg1] =
          Returned (Qfloor indate * 1000000 + Qfloor intime)).
Proof.
  intros H0 H1. unfold FunctionTIMESTAMP_output.
  rewrite (eval_two arg0 arg1 false m1 m2 x y H0 H1), <- andb_assoc.
  pose proof (within_test x INT_MAX) as Wx. pose proof (within_test y 240000) as Wy.
  split.
  - intros Hout.
    destruct (ge_int x 0 && le_int x INT_MAX);
      destruct (ge_int y 0 && le_int y 240000); try reflexivity.
    exfalso. apply Hout. split; [apply Wx | apply Wy]; reflexivity.
  - intros indate intime -> -> [Hd0 Hd1] [Ht0 Ht1].
    destruct (to_long_long_floor indate INT_MAX Hd0 Hd1) as [Ed _].
    destruct (to_long_long_floor intime 240000 Ht0 Ht1) as [Et _].
    rewrite (proj2 Wx) by (exists indate; auto).
    rewrite (proj2 Wy) by (exists intime; auto).
    cbn [andb Outcome_bind]. rewrite Ed, Et.
    unfold trunc, of_long_long. cbn [to_long_long inject_Z Qnum Qden].
    rewrite !Z.quot_1_r. reflexivity.
Qed.

Lemma TIMESTAMP_in_range_witness :
  FunctionTIMESTAMP_eval
    [fun m => (Finite (inject_Z 20240131), m); fun m => (Finite (inject_Z 123456), m)] false =
  Returned (Finite (inject_Z 20240131123456), false).
Proof.
  apply (TIMESTAMP_in_range (fun m => (Finite (inject_Z 20240131), m))
           (fun m => (Finite (inject_Z 123456), m)) false false false
           (inject_Z 20240131) (inject_Z 123456)).
  - reflexivity.
  - reflexivity.
  - split; discriminate.
  - split; discriminate.
Defined.

Lemma TIMESTAMP_out_of_range_witness :
  FunctionTIMESTAMP_eval
    [fun m => (Finite (inject_Z 20240131), m); fun m => (NaN, m)] false =
  Returned (Finite 0, true).
Proof.
  apply (TIMESTAMP_out_of_range (fun m => (Finite (inject_Z 20240131), m))
           (fun m => (NaN, m)) false false false (Finite (inject_Z 20240131)) NaN).
  - reflexivity.
  - reflexivity.
  - intros [_ (q & Hq & _)]. discriminate.
Defined.

Lemma TIMESTAMP_missing_witness :
  exists r m',
    FunctionTIMESTAMP_eval
      [fun _ => (Finite (inject_Z 20240131), true); fun m => (Finite (inject_Z 0), m)] false =
    Returned (r, m')
    /\ m' <> false.
Proof.
  destruct (TIMESTAMP_missing (fun _ => (Finite (inject_Z 20240131), true))
              (fun m => (Finite (inject_Z 0), m)) false true true
              (Finite (inject_Z 20240131)) (Finite (inject_Z 0)))
    as (r & m' & He & Hm).
  - reflexivity.
  - reflexivity.
  - exists r, m'. split; [exact He|].
    intros Hf. apply Hm in Hf. destruct Hf as (_ & _ & Hf). discriminate.
Defined.

Lemma TIMESTAMP_output_witness :
  FunctionTIMESTAMP_output
    [fun m => (Finite (inject_Z 20240131), m); fun m => (Infinity false, m)] = Returned 0.
Proof.
  apply (TIMESTAMP_output (fun m => (Finite (inject_Z 20240131), m))
           (fun m => (Infinity false, m)) false false
           (Finite (inject_Z 20240131)) (Infinity false)).
  - reflexivity.
  - reflexivity.
  - intros [_ (q & Hq & _)]. discriminate.
Defined.

End SqlFacts.

Module XprFacts.
Import Xpr.

(** C5, as written, fails on a list-valued operand that is not a literal
    list: [zipWith(f, [], [])] is countable and its value is the list of no
    element, yet [count] of it evaluates to the Scalar 3, the number of
    arguments of the ZipWith node, which [Count::evaluate] reads without
    evaluating the node. *)
Lemma count_zipWith :
  let z := zipWith (Some 1) (Some 2) (Some 3) in
  store3 !! 4 = Some z
  /\ store3 !! 5 = Some (mkExpr KCount [Some 4])
  /\ ZipWith_countable z = true
  /\ ZipWith_count store3 z = Returned 0%nat
  /\ Count_evaluate store3 (mkExpr KCount [Some 4]) [] =
       (Returned (Some 6), store3 ++ [mkExpr (KScalar 3) []], [])
  /\ Z.of_nat 0 <> 3%Z
  /\ Count_evaluate store3 (mkExpr KCount [Some 2]) [] =
       (Returned (Some 6), store3 ++ [mkExpr (KScalar 0) []], []).
Proof. cbv zeta. repeat split. discriminate. Qed.

End XprFacts.
